(** * worklogr: collector, persistence, retry transport and token store

    Shallow embedding of the Go sources of worklogr
    ([internal/collector], [internal/database/sqlite.go],
    [internal/services] retry transport, [internal/auth/token_store.go],
    [internal/utils/timezone.go]) and proofs about them. *)

From Stdlib Require Import ZArith Lia Sorting.Sorted Ascii.
From stdpp Require Import base gmap strings list.

Local Open Scope Z_scope.

(* ================================================================= *)
(** ** Data model ([internal/config]) *)

(** A Go [time.Time]: the instant as nanoseconds since the Unix epoch
    (UTC) and the offset, in seconds, of the zone it carries. Go's
    [After], [Before] and [Sub] only look at the instant. *)
Record Time := mkTime {
  t_unix_ns : Z;
  t_offset : Z
}.

(** [t.After(u)] *)
Definition After (t u : Time) : bool := t_unix_ns u <? t_unix_ns t.

(** Go's [time.Duration] is an int64 count of nanoseconds. *)
Definition Second : Z := 1000000000.
Definition Minute : Z := 60 * Second.
Definition Hour : Z := 60 * Minute.
Definition maxDuration : Z := 2 ^ 63 - 1.
Definition minDuration : Z := - 2 ^ 63.

(** Two's-complement wrap-around of a signed 64-bit result. *)
Definition wrap64 (x : Z) : Z := (x + 2 ^ 63) mod 2 ^ 64 - 2 ^ 63.

(** [t.Sub(u)]: saturates at the int64 bounds. *)
Definition Sub (t u : Time) : Z :=
  let d := t_unix_ns t - t_unix_ns u in
  if maxDuration <? d then maxDuration
  else if d <? minDuration then minDuration
  else d.

Record EventAttachment := mkAttachment {
  FileID : string;
  att_Title : string;
  MimeType : string;
  ExportAs : string;
  TextFull : string;
  Truncated : bool
}.

Record Event := mkEvent {
  ID : string;
  Service : string;
  ev_Type : string;  (* Go field [Type] *)
  Title : string;
  Content : string;
  Timestamp : Time;
  Metadata : string;
  UserID : string;
  Attachments : list EventAttachment
}.

(** The instant of an event, as compared by [Timestamp.After]. *)
Definition ts_key (e : Event) : Z := t_unix_ns (Timestamp e).

(* ================================================================= *)
(** ** [EventCollector.sortEventsByTimestamp] *)

(** One iteration of the inner loop body:
<<
    if events[j].Timestamp.After(events[j+1].Timestamp) {
        events[j], events[j+1] = events[j+1], events[j]
    }
>> *)
Definition bubble_step (events : list Event) (j : nat) : list Event :=
  match events !! j, events !! S j with
  | Some a, Some b =>
      if After (Timestamp a) (Timestamp b)
      then <[j := b]> (<[S j := a]> events)
      else events
  | _, _ => events
  end.

(** [for j := 0; j < n-i-1; j++ { ... }] *)
Definition inner_loop (n i : nat) (events : list Event) : list Event :=
  fold_left bubble_step (seq 0 (n - i - 1)) events.

(** [n := len(events); for i := 0; i < n-1; i++ { ... }]; the slice is
    sorted in place, the model returns the final contents. *)
Definition sortEventsByTimestamp (events : list Event) : list Event :=
  let n := length events in
  fold_left (fun ev i => inner_loop n i ev) (seq 0 (n - 1)) events.

(** The inner loop read as a function on lists: the larger of the two
    compared events is carried to the right. *)
Fixpoint pass (m : nat) (l : list Event) : list Event :=
  match m, l with
  | S m', x :: y :: r =>
      if After (Timestamp x) (Timestamp y)
      then y :: pass m' (x :: r)
      else x :: pass m' (y :: r)
  | _, _ => l
  end.

(* ================================================================= *)
(** ** [EventCollector.CollectEvents] *)

(** What one call of a [ServiceClient]'s [CollectEvents(start, end)]
    returns: a slice of events, or an error. *)
Inductive FetchResult :=
  | FetchOk (events : list Event)
  | FetchErr (err : string).

(** [ServiceClient] interface: [CollectEvents(startTime, endTime)]. *)
Definition ServiceClient := Time -> Time -> FetchResult.

(** [ec.services map[string]ServiceClient]: the initialised clients. *)
Abbreviation ServiceMap := (gmap string ServiceClient).

(** The errors [CollectEvents] itself can return. *)
Inductive CollectError :=
  | ErrNoServicesAvailable.  (* no service available *)

Inductive CollectResult :=
  | CollectOk (events : list Event)
  | CollectErr (err : CollectError).

(** What the call leaves observable besides its result: the services
    whose [CollectEvents] was invoked, in order, and the names warned
    about as unavailable. *)
Record CollectTrace := mkTrace {
  calls : list string;
  warnings : list string
}.

(** The body of the [for _, serviceName := range serviceNames] loop
    building [servicesToCollect], with the warning it logs. *)
Definition select_step (services : ServiceMap)
    (acc : ServiceMap * list string) (serviceName : string)
    : ServiceMap * list string :=
  let '(m, warns) := acc in
  match services !! serviceName with
  | Some client => (<[serviceName := client]> m, warns)
  | None => (m, warns ++ [serviceName])
  end.

(** [servicesToCollect := ec.services; if len(serviceNames) > 0 { ... }] *)
Definition servicesToCollect (services : ServiceMap) (serviceNames : list string)
    : ServiceMap * list string :=
  match serviceNames with
  | [] => (services, [])
  | _ => fold_left (select_step services) serviceNames (∅, [])
  end.

(** The order in which the workers' results reach the accumulator.
    In the sequential collector it is Go's (unspecified) map iteration
    order; in the concurrent collector it is the order in which the
    goroutines take the mutex. Either way it is some enumeration of the
    candidate map, which [valid_schedule] requires. *)
Definition Schedule := ServiceMap -> list (string * ServiceClient).

Definition valid_schedule (sched : Schedule) : Prop :=
  forall m, sched m ≡ₚ map_to_list m.

(** One worker per candidate: call the client; on error log it and
    contribute nothing; on success append its events under the lock. *)
Fixpoint collect_loop (startTime endTime : Time)
    (workers : list (string * ServiceClient))
    (allEvents : list Event) (called : list string) : list Event * list string :=
  match workers with
  | [] => (allEvents, called)
  | (serviceName, client) :: rest =>
      match client startTime endTime with
      | FetchErr _ => collect_loop startTime endTime rest allEvents (called ++ [serviceName])
      | FetchOk events =>
          collect_loop startTime endTime rest (allEvents ++ events) (called ++ [serviceName])
      end
  end.

Definition CollectEvents (sched : Schedule) (services : ServiceMap)
    (startTime endTime : Time) (serviceNames : list string)
    : CollectResult * CollectTrace :=
  let '(toCollect, warns) := servicesToCollect services serviceNames in
  if decide (toCollect = ∅) then (CollectErr ErrNoServicesAvailable, mkTrace [] warns)
  else
    let '(allEvents, called) := collect_loop startTime endTime (sched toCollect) [] [] in
    (CollectOk (sortEventsByTimestamp allEvents), mkTrace called warns).

(** The events of the candidates whose fetch succeeds (a failing one
    contributes none), in the map's enumeration order. *)
Definition fetched (startTime endTime : Time) (client : ServiceClient) : list Event :=
  match client startTime endTime with
  | FetchOk events => events
  | FetchErr _ => []
  end.

Definition successful_events (startTime endTime : Time) (m : ServiceMap) : list Event :=
  concat (map (fun nc => fetched startTime endTime nc.2) (map_to_list m)).


(** Fixtures from [collector_test.go]. *)
Definition t_base : Time := mkTime 1771840800000000000 0.
Definition t_plus (mins : Z) : Time := mkTime (1771840800000000000 + mins * Minute) 0.

Definition mk_test_event (id : string) (ts : Time) : Event :=
  mkEvent id "test" "test" ("title-" +:+ id) ("content-" +:+ id) ts "" "" [].

Definition svc_ok : ServiceClient :=
  fun _ _ => FetchOk [mk_test_event "ok-2" (t_plus 2); mk_test_event "ok-1" (t_plus 1)].
Definition svc_failed : ServiceClient := fun _ _ => FetchErr "upstream failed".

Definition ok_and_failed : ServiceMap :=
  <["ok" := svc_ok]> (<["failed" := svc_failed]> ∅).
Definition only_failed : ServiceMap := <["failed" := svc_failed]> ∅.

Definition svc_slack : ServiceClient := fun _ _ => FetchOk [mk_test_event "slack-1" (t_plus 1)].
Definition svc_github : ServiceClient := fun _ _ => FetchOk [mk_test_event "github-1" (t_plus 2)].
Definition slack_and_github : ServiceMap :=
  <["slack" := svc_slack]> (<["github" := svc_github]> ∅).


(* ================================================================= *)
(** ** Persistence: [DatabaseManager] ([internal/database/sqlite.go]) *)

(** A row of the [events] table, keyed by [id] (PRIMARY KEY). The
    [timestamp] column holds the bound [time.Time] (see [go_format] for
    its text); [created_at] is the statement's [CURRENT_TIMESTAMP]. *)
Record EventRow := mkEventRow {
  r_service : string;
  r_type : string;
  r_title : string;
  r_content : string;
  r_timestamp : Time;
  r_metadata : string;
  r_user_id : string;
  r_created_at : Z
}.

(** A row of [event_attachments], keyed by its [id] (PRIMARY KEY). *)
Record AttachmentRow := mkAttachmentRow {
  ar_event_id : string;
  ar_file_id : string;
  ar_title : string;
  ar_mime_type : string;
  ar_export_as : string;
  ar_text_full : string;
  ar_truncated : Z;
  ar_created_at : Z
}.

Record DB := mkDB {
  events_table : gmap string EventRow;
  attachments_table : gmap string AttachmentRow
}.

(** [strings.ReplaceAll(s, " ", "_")] *)
Fixpoint replace_spaces (s : string) : string :=
  match s with
  | EmptyString => EmptyString
  | String c r => String (if Ascii.eqb c " "%char then "_"%char else c) (replace_spaces r)
  end.

Definition attachmentRowID (eventID fileID : string) : string :=
  replace_spaces (eventID +:+ "__" +:+ fileID).

(** The statements [InsertEvents] runs, as they appear in the trace. *)
Inductive SqlOp :=
  | OpBegin
  | OpPrepareEvents
  | OpExecEvent (e : Event)
  | OpPrepareAttachments (e : Event)
  | OpExecAttachment (e : Event) (a : EventAttachment)
  | OpCommit.

Inductive DbError :=
  | ErrBegin                       (* "failed to begin transaction" *)
  | ErrPrepare                     (* "failed to prepare statement" *)
  | ErrInsertEvent (id : string)   (* "failed to insert event %s" *)
  | ErrPrepareAttachment           (* "failed to prepare attachment statement" *)
  | ErrInsertAttachment (id : string)  (* "failed to insert attachment for event %s" *)
  | ErrCommit.                     (* "failed to commit transaction" *)

(** The open transaction: its view of both tables, the number of
    statements run so far and the trace of (statement, succeeded). *)
Record TxState := mkTx {
  tx_events : gmap string EventRow;
  tx_attachments : gmap string AttachmentRow;
  tx_next : nat;
  tx_log : list (SqlOp * bool)
}.

(** Error and state monad of the code running inside the transaction. *)
Definition TxM (A : Type) : Type := TxState -> (DbError + A) * TxState.

Global Instance tx_mret : MRet TxM := fun A x st => (inr x, st).
Global Instance tx_mbind : MBind TxM := fun A B k m st =>
  match m st with
  | (inl err, st') => (inl err, st')
  | (inr x, st') => k x st'
  end.

(** Running one statement. Whether the engine accepts it is decided by
    [ok], indexed by the statement's position in the call: any pattern
    of failures can be chosen. On success [eff] is applied to the
    transaction's tables. *)
Definition exec_stmt (ok : nat -> bool) (op : SqlOp) (err : DbError)
    (eff : TxState -> TxState) : TxM unit :=
  fun st =>
    let b := ok (tx_next st) in
    let st' := mkTx (tx_events st) (tx_attachments st) (S (tx_next st))
                    (tx_log st ++ [(op, b)]) in
    if b then (inr tt, eff st') else (inl err, st').

(** [INSERT OR REPLACE INTO events (...) VALUES (...)] *)
Definition event_row (now : Z) (e : Event) : EventRow :=
  mkEventRow (Service e) (ev_Type e) (Title e) (Content e) (Timestamp e)
    (Metadata e) (UserID e) now.

Definition put_event (now : Z) (e : Event) (st : TxState) : TxState :=
  mkTx (<[ID e := event_row now e]> (tx_events st)) (tx_attachments st)
    (tx_next st) (tx_log st).

(** [INSERT OR REPLACE INTO event_attachments (...) VALUES (...)] *)
Definition attachment_row (now : Z) (e : Event) (a : EventAttachment) : AttachmentRow :=
  mkAttachmentRow (ID e) (FileID a) (att_Title a) (MimeType a) (ExportAs a)
    (TextFull a) (if Truncated a then 1 else 0) now.

Definition put_attachment (now : Z) (e : Event) (a : EventAttachment) (st : TxState) : TxState :=
  mkTx (tx_events st)
    (<[attachmentRowID (ID e) (FileID a) := attachment_row now e a]> (tx_attachments st))
    (tx_next st) (tx_log st).

(** [for _, a := range event.Attachments { if a.FileID == "" { continue }; ... }] *)
Fixpoint insert_attachment_rows (ok : nat -> bool) (now : Z) (e : Event)
    (atts : list EventAttachment) : TxM unit :=
  match atts with
  | [] => mret tt
  | a :: rest =>
      if String.eqb (FileID a) "" then insert_attachment_rows ok now e rest
      else exec_stmt ok (OpExecAttachment e a) (ErrInsertAttachment (ID e)) (put_attachment now e a) ;;
           insert_attachment_rows ok now e rest
  end.

(** [DatabaseManager.insertAttachmentsTx] *)
Definition insertAttachmentsTx (ok : nat -> bool) (now : Z) (e : Event) : TxM unit :=
  match Attachments e with
  | [] => mret tt
  | atts =>
      exec_stmt ok (OpPrepareAttachments e) ErrPrepareAttachment (fun st => st) ;;
      insert_attachment_rows ok now e atts
  end.

(** [for _, event := range events { stmt.Exec(...); dm.insertAttachmentsTx(tx, event) }] *)
Fixpoint insert_event_rows (ok : nat -> bool) (now : Z) (events : list Event) : TxM unit :=
  match events with
  | [] => mret tt
  | e :: rest =>
      exec_stmt ok (OpExecEvent e) (ErrInsertEvent (ID e)) (put_event now e) ;;
      insertAttachmentsTx ok now e ;;
      insert_event_rows ok now rest
  end.

(** [DatabaseManager.InsertEvents]: [Begin], [Prepare], the rows,
    [Commit]; on any error the deferred [tx.Rollback()] discards the
    transaction (a failed [Commit] is rolled back by the driver), so the
    database is the one before the call. Returns the error, the database
    after the call and the statement trace. *)
Definition InsertEvents (ok : nat -> bool) (now : Z) (db : DB) (events : list Event)
    : option DbError * DB * list (SqlOp * bool) :=
  let st0 := mkTx (events_table db) (attachments_table db) 0 [] in
  let body :=
    exec_stmt ok OpBegin ErrBegin (fun st => st) ;;
    exec_stmt ok OpPrepareEvents ErrPrepare (fun st => st) ;;
    insert_event_rows ok now events ;;
    exec_stmt ok OpCommit ErrCommit (fun st => st) in
  match body st0 with
  | (inr _, st) => (None, mkDB (tx_events st) (tx_attachments st), tx_log st)
  | (inl err, st) => (Some err, db, tx_log st)
  end.

(** The events table after a batch is applied row by row. *)
Definition upsert_all (now : Z) (events : list Event) (m : gmap string EventRow)
    : gmap string EventRow :=
  fold_left (fun acc e => <[ID e := event_row now e]> acc) events m.


(** The last event of the batch carrying [id], the one whose row an
    [INSERT OR REPLACE] leaves in place. *)
Fixpoint last_event_with_id (id : string) (events : list Event) : option Event :=
  match events with
  | [] => None
  | e :: rest =>
      match last_event_with_id id rest with
      | Some e' => Some e'
      | None => if String.eqb (ID e) id then Some e else None
      end
  end.


(** One attachment of [insert_attachment_rows] applied to the table;
    an attachment with an empty [FileID] is skipped. *)
Definition put_attachment_row (now : Z) (e : Event) (m : gmap string AttachmentRow)
    (a : EventAttachment) : gmap string AttachmentRow :=
  if String.eqb (FileID a) "" then m
  else <[attachmentRowID (ID e) (FileID a) := attachment_row now e a]> m.

(** The attachments table after a batch is applied row by row. *)
Definition attach_all (now : Z) (events : list Event) (m : gmap string AttachmentRow)
    : gmap string AttachmentRow :=
  fold_left (fun m e => fold_left (put_attachment_row now e) (Attachments e) m) events m.

(** The attachment row IDs a batch writes. *)
Definition attachment_keys (events : list Event) : list string :=
  concat (map (fun e => map (fun a => attachmentRowID (ID e) (FileID a))
                         (List.filter (fun a => negb (String.eqb (FileID a) "")) (Attachments e)))
              events).

(** Fixtures for the persistence layer. *)
Definition empty_db : DB := mkDB ∅ ∅.

Definition note_attachment : EventAttachment :=
  mkAttachment "file-1" "notes" "application/vnd.google-apps.document" "text/plain" "hello" false.

Definition sample_batch : list Event :=
  [mkEvent "cal-1" "google_calendar" "event_attended" "standup" "" (t_plus 1) "" "u"
     [note_attachment];
   mk_test_event "ok-1" (t_plus 2);
   mk_test_event "cal-1" (t_plus 3)].


(** *** Text of a bound [time.Time]

    go-sqlite3 binds a [time.Time] as the text
    [t.Format("2006-01-02 15:04:05.999999999-07:00")]: the wall clock in
    the time's own zone, the nanoseconds with trailing zeros removed
    (and no dot when they are zero), then the zone offset. *)

Definition digit_char (d : Z) : ascii := ascii_of_nat (48 + Z.to_nat d).

Fixpoint dec_digits (fuel : nat) (n : Z) (acc : string) : string :=
  match fuel with
  | O => acc
  | S f =>
      let acc' := String (digit_char (n mod 10)) acc in
      if n <? 10 then acc' else dec_digits f (n / 10) acc'
  end.

Fixpoint zeros (k : nat) : string :=
  match k with O => EmptyString | S k' => String "0"%char (zeros k') end.

(** Go's [appendInt(b, x, width)]: sign, then at least [width] digits. *)
Definition appendInt (x : Z) (width : nat) : string :=
  let digits := dec_digits 40 (Z.abs x) EmptyString in
  let padded := zeros (width - String.length digits) +:+ digits in
  if x <? 0 then "-" +:+ padded else padded.

(** Proleptic Gregorian date of a day count since 1970-01-01. *)
Definition civil_from_days (z0 : Z) : Z * Z * Z :=
  let z := z0 + 719468 in
  let era := z / 146097 in
  let doe := z - era * 146097 in
  let yoe := (doe - doe / 1460 + doe / 36524 - doe / 146096) / 365 in
  let y := yoe + era * 400 in
  let doy := doe - (365 * yoe + yoe / 4 - yoe / 100) in
  let mp := (5 * doy + 2) / 153 in
  let d := doy - (153 * mp + 2) / 5 + 1 in
  let m := if mp <? 10 then mp + 3 else mp - 9 in
  (if m <=? 2 then y + 1 else y, m, d).

Fixpoint drop_trailing_zeros_rev (s : list ascii) : list ascii :=
  match s with
  | c :: r => if Ascii.eqb c "0"%char then drop_trailing_zeros_rev r else s
  | [] => []
  end.

(** [.999999999]: nine digits, trailing zeros trimmed, nothing if zero. *)
Definition format_nanos (ns : Z) : string :=
  if ns =? 0 then EmptyString
  else "." +:+ String.string_of_list_ascii
               (rev (drop_trailing_zeros_rev (rev (String.list_ascii_of_string (appendInt ns 9))))).

(** [-07:00] *)
Definition format_offset (offset : Z) : string :=
  let zone := Z.quot offset 60 in
  let sign := if zone <? 0 then "-" else "+" in
  let zone := Z.abs zone in
  sign +:+ appendInt (zone / 60) 2 +:+ ":" +:+ appendInt (zone mod 60) 2.

Definition go_format (t : Time) : string :=
  let local := t_unix_ns t + t_offset t * Second in
  let secs := local / Second in
  let ns := local mod Second in
  let '(y, mo, d) := civil_from_days (secs / 86400) in
  let sod := secs mod 86400 in
  appendInt y 4 +:+ "-" +:+ appendInt mo 2 +:+ "-" +:+ appendInt d 2 +:+ " " +:+
  appendInt (sod / 3600) 2 +:+ ":" +:+ appendInt ((sod / 60) mod 60) 2 +:+ ":" +:+
  appendInt (sod mod 60) 2 +:+ format_nanos ns +:+ format_offset (t_offset t).

(** SQLite's BINARY collation: byte-wise comparison, a proper prefix
    first. *)
Fixpoint text_le (s1 s2 : string) : bool :=
  match s1, s2 with
  | EmptyString, _ => true
  | String _ _, EmptyString => false
  | String c1 r1, String c2 r2 =>
      let n1 := nat_of_ascii c1 in
      let n2 := nat_of_ascii c2 in
      if (n1 <? n2)%nat then true
      else if (n2 <? n1)%nat then false
      else text_le r1 r2
  end.

(** *** [DatabaseManager.GetEvents]

    [datetime(x)] parses a time text, turns it to UTC and prints it to
    the second; for years 0000-9999 comparing two such texts is
    comparing the seconds they denote. Reading the stored [go_format]
    text, SQLite caps the fraction at 0.999 s and rounds it to the
    millisecond, so it never carries into the next second: the printed
    second is the text's wall-clock second, minus the zone offset the
    text gives in whole minutes. The bounds are bound as
    [t.UTC().Format("2006-01-02 15:04:05")], which already drops the
    fraction. *)
Definition datetime_stored (t : Time) : Z :=
  (t_unix_ns t + t_offset t * Second) / Second - Z.quot (t_offset t) 60 * 60.

Definition datetime_arg (t : Time) : Z := t_unix_ns t / Second.

(** [WHERE datetime(timestamp) >= datetime(?) AND datetime(timestamp) <= datetime(?)
     [AND service IN (...)]] *)
Definition row_matches (startTime endTime : Time) (services : list string)
    (row : EventRow) : bool :=
  (datetime_arg startTime <=? datetime_stored (r_timestamp row)) &&
  (datetime_stored (r_timestamp row) <=? datetime_arg endTime) &&
  match services with
  | [] => true
  | _ => bool_decide (r_service row ∈ services)
  end.

(** [rows.Scan(...)] into a fresh [config.Event]. *)
Definition scan_row (id : string) (row : EventRow) : Event :=
  mkEvent id (r_service row) (r_type row) (r_title row) (r_content row)
    (r_timestamp row) (r_metadata row) (r_user_id row) [].

Definition query_rows (db : DB) (startTime endTime : Time) (services : list string)
    : list Event :=
  map (fun ir => scan_row ir.1 ir.2)
    (List.filter (fun ir => row_matches startTime endTime services ir.2)
       (map_to_list (events_table db))).

(** [ORDER BY timestamp ASC]: by the stored text, equal texts in any
    order. *)
Definition stored_text_le (a b : Event) : Prop :=
  text_le (go_format (Timestamp a)) (go_format (Timestamp b)) = true.

(** The event lists [GetEvents(startTime, endTime, services)] can
    return: the matching rows in an order allowed by [ORDER BY].
    ([populateAttachments] afterwards only fills [Attachments].) *)
Definition GetEvents (db : DB) (startTime endTime : Time) (services : list string)
    (result : list Event) : Prop :=
  result ≡ₚ query_rows db startTime endTime services /\ Sorted stored_text_le result.


(** Fixtures for [GetEvents]: 2024-01-01 10:00:00 UTC and an event
    stored 0.2 s after it, queried from 0.7 s after it. *)
Definition ten_oclock_ns : Z := 1704103200 * Second.
Definition subsecond_row : EventRow :=
  mkEventRow "slack" "message" "hello" "" (mkTime (ten_oclock_ns + 200000000) 0) "" "u" 0.
Definition subsecond_db : DB := mkDB {[ "slack-1" := subsecond_row ]} ∅.
Definition query_start : Time := mkTime (ten_oclock_ns + 700000000) 0.
Definition query_end : Time := mkTime (ten_oclock_ns + 3600 * Second) 0.

(** Two rows of one window, one stored in UTC+9 and one in UTC. *)
Definition tokyo_row : EventRow :=
  mkEventRow "google_calendar" "event_attended" "a" "" (mkTime (ten_oclock_ns - 9 * Hour) (9 * 3600)) "" "u" 0.
Definition utc_row : EventRow :=
  mkEventRow "github" "commit" "b" "" (mkTime (ten_oclock_ns - 5 * Hour) 0) "" "u" 0.
Definition mixed_zone_db : DB :=
  mkDB (<[ "cal-1" := tokyo_row ]> {[ "gh-1" := utc_row ]}) ∅.
Definition day_start : Time := mkTime (ten_oclock_ns - 10 * Hour) 0.

(** *** [DatabaseManager.DeleteOldEvents]

    [cutoff := time.Now().Add(-olderThan)]: the negation is the int64
    one, and the cutoff keeps the zone of [time.Now()]. go-sqlite3 binds
    a [time.Time] as its [go_format] text, so [timestamp < ?] compares
    two texts under the BINARY collation. [RowsAffected] of the sqlite3
    driver does not fail. No statement touches [event_attachments]. *)
Definition text_lt (s1 s2 : string) : bool := negb (text_le s2 s1).

Inductive DeleteError := ErrDeleteOld.   (* "failed to delete old events" *)

Definition delete_cutoff (now : Time) (olderThan : Z) : Time :=
  mkTime (t_unix_ns now + wrap64 (- olderThan)) (t_offset now).

Definition DeleteOldEvents (ok : nat -> bool) (now : Time) (olderThan : Z) (db : DB)
    : option DeleteError * DB :=
  let cutoff := delete_cutoff now olderThan in
  if ok 0%nat then
    (None, mkDB (filter (fun ir : string * EventRow =>
                   text_lt (go_format (r_timestamp ir.2)) (go_format cutoff) = false)
                   (events_table db))
                (attachments_table db))
  else (Some ErrDeleteOld, db).

(** *** [DatabaseManager.GetStats]

    [SELECT COUNT( * ) FROM events], then
    [SELECT service, COUNT( * ) FROM events GROUP BY service]: one row per
    distinct service (BINARY collation, so byte-equal strings), in an
    order SQLite chooses. *)
Definition service_count (rows : gmap string EventRow) (s : string) : nat :=
  length (List.filter (fun ir : string * EventRow => String.eqb (r_service ir.2) s)
            (map_to_list rows)).

Definition stats_groups (rows : gmap string EventRow) : list (string * Z) :=
  map (fun s => (s, Z.of_nat (service_count rows s)))
    (remove_dups (map (fun ir : string * EventRow => r_service ir.2) (map_to_list rows))).

Inductive StatsError :=
  | ErrStatsTotal       (* "failed to get total events" *)
  | ErrStatsByService.  (* "failed to get events by service" *)

(** [ok k]: whether the k-th query runs. [groups] are the rows the
    [for rows.Next()] loop sees: when the iteration stops on an error
    the loop just ends, as [rows.Err()] is never checked, so they are a
    prefix of the grouped rows in SQLite's order. *)
Definition GetStats (ok : nat -> bool) (groups : list (string * Z)) (db : DB)
    : StatsError + gmap string Z :=
  if negb (ok 0%nat) then inl ErrStatsTotal else
  let stats : gmap string Z := <["total" := Z.of_nat (size (events_table db))]> ∅ in
  if negb (ok 1%nat) then inl ErrStatsByService else
  inr (fold_left (fun m (sc : string * Z) => <[sc.1 := sc.2]> m) groups stats).

(** Fixtures for [GetStats]: the loop reads the first grouped row of
    [mixed_zone_db] and the iteration then stops on an error. *)
Definition partial_groups : list (string * Z) := take 1 (stats_groups (events_table mixed_zone_db)).
Definition unread_groups : list (string * Z) := drop 1 (stats_groups (events_table mixed_zone_db)).

(** *** [DatabaseManager.populateAttachments]

    The events are the slice of pointers [GetEvents] builds, one fresh
    [config.Event] per row, so an event is its position in the list;
    [eventByID] maps an ID to the position of the last event carrying
    it. (No [nil] pointer reaches the function.) *)
Definition chunkSize : nat := 900.

Inductive PopulateError :=
  | ErrQueryAttachments    (* "failed to query event attachments" *)
  | ErrIterateAttachments. (* "error iterating attachment rows" *)

(** [for _, e := range events { if e.ID == "" { continue }; ids = append(ids, e.ID); eventByID[e.ID] = e }] *)
Fixpoint collect_ids (k : nat) (events : list Event) (ids : list string)
    (eventByID : gmap string nat) : list string * gmap string nat :=
  match events with
  | [] => (ids, eventByID)
  | e :: rest =>
      if String.eqb (ID e) "" then collect_ids (S k) rest ids eventByID
      else collect_ids (S k) rest (ids ++ [ID e]) (<[ID e := k]> eventByID)
  end.

(** The scanned row as a [config.EventAttachment]. *)
Definition row_attachment (a : AttachmentRow) : EventAttachment :=
  mkAttachment (ar_file_id a) (ar_title a) (ar_mime_type a) (ar_export_as a)
    (ar_text_full a) (negb (ar_truncated a =? 0)).

Definition add_attachment (a : EventAttachment) (e : Event) : Event :=
  mkEvent (ID e) (Service e) (ev_Type e) (Title e) (Content e) (Timestamp e)
    (Metadata e) (UserID e) (Attachments e ++ [a]).

(** [for rows.Next() { ...; e := eventByID[eventID]; if e == nil { continue };
     e.Attachments = append(e.Attachments, ...) }] *)
Fixpoint apply_attachment_rows (eventByID : gmap string nat) (rows : list AttachmentRow)
    (events : list Event) : list Event :=
  match rows with
  | [] => events
  | a :: rest =>
      apply_attachment_rows eventByID rest
        match eventByID !! ar_event_id a with
        | Some i => alter (add_attachment (row_attachment a)) i events
        | None => events
        end
  end.

(** [for i := 0; i < len(ids); i += chunkSize { chunk := ids[i:end]; ... }].
    [query chunk] is what [SELECT ... WHERE event_id IN (chunk) ORDER BY
    created_at ASC] delivers: the rows [rows.Next] yields, and whether the
    query failed or its iteration ended on an error. *)
Fixpoint chunk_loop (fuel : nat) (query : list string -> list AttachmentRow * option PopulateError)
    (eventByID : gmap string nat) (ids : list string) (events : list Event)
    : option PopulateError * list Event :=
  match fuel with
  | O => (None, events)
  | S f =>
      match ids with
      | [] => (None, events)
      | _ =>
          let chunk := take chunkSize ids in
          match query chunk with
          | (_, Some ErrQueryAttachments) => (Some ErrQueryAttachments, events)
          | (rows, Some err) => (Some err, apply_attachment_rows eventByID rows events)
          | (rows, None) =>
              chunk_loop f query eventByID (drop chunkSize ids)
                (apply_attachment_rows eventByID rows events)
          end
      end
  end.

Definition populateAttachments (query : list string -> list AttachmentRow * option PopulateError)
    (events : list Event) : option PopulateError * list Event :=
  match events with
  | [] => (None, events)
  | _ =>
      let '(ids, eventByID) := collect_ids 0 events [] ∅ in
      match ids with
      | [] => (None, events)
      | _ => chunk_loop (length ids) query eventByID ids events
      end
  end.

(** The attachments an event gains. *)
Definition with_more_attachments (e : Event) (rows : list AttachmentRow) : Event :=
  mkEvent (ID e) (Service e) (ev_Type e) (Title e) (Content e) (Timestamp e)
    (Metadata e) (UserID e) (Attachments e ++ map row_attachment rows).

Definition created_le (a b : AttachmentRow) : Prop := ar_created_at a <= ar_created_at b.

(** A query that runs without error and returns the rows of [tbl] whose
    [event_id] is in the chunk, ordered by [created_at]. *)
Definition honest_query (tbl : gmap string AttachmentRow)
    (query : list string -> list AttachmentRow * option PopulateError) : Prop :=
  forall chunk, (query chunk).2 = None /\
    (query chunk).1 ≡ₚ List.filter (fun a => bool_decide (ar_event_id a ∈ chunk))
                         (map snd (map_to_list tbl)) /\
    Sorted created_le (query chunk).1.

(** Fixtures for [populateAttachments]: two attachment rows of
    ["cal-1"], one of ["gh-1"], an event without ID, and the query
    evaluated on that table. *)
Definition fixture_attachments : gmap string AttachmentRow :=
  <["cal-1__file-1" := mkAttachmentRow "cal-1" "file-1" "notes" "text/plain" "" "hello" 0 0]>
  (<["cal-1__file-2" := mkAttachmentRow "cal-1" "file-2" "slides" "" "" "" 1 0]>
   {[ "gh-1__file-3" := mkAttachmentRow "gh-1" "file-3" "diff" "" "" "" 0 0 ]}).

Definition fixture_query (chunk : list string) : list AttachmentRow * option PopulateError :=
  (List.filter (fun a => bool_decide (ar_event_id a ∈ chunk))
     (map snd (map_to_list fixture_attachments)), None).

Definition fixture_events : list Event :=
  [mk_test_event "cal-1" (t_plus 1); mk_test_event "" (t_plus 2); mk_test_event "gh-1" (t_plus 3)].


(* ================================================================= *)
(** ** Time range validation *)

Inductive RangeError :=
  | ErrStartAfterEnd   (* start after end *)
  | ErrFutureEnd       (* end in the future *)
  | ErrRangeTooLarge.  (* longer than a year *)

(** [EventCollector.ValidateTimeRange]; [now] is [time.Now()]. *)
Definition ValidateTimeRange (now startTime endTime : Time) : option RangeError :=
  if After startTime endTime then Some ErrStartAfterEnd
  else if After endTime now then Some ErrFutureEnd
  else if 365 * 24 * Hour <? Sub endTime startTime then Some ErrRangeTooLarge
  else None.

(** A [time.Location]: the zone offset in force at each instant. *)
Definition Location := Z -> Z.

(** [t.In(loc)]: same instant, read in [loc]. *)
Definition time_In (t : Time) (loc : Location) : Time :=
  mkTime (t_unix_ns t) (loc (t_unix_ns t)).

(** [TimezoneManager.ValidateTimeRange] *)
Definition tz_ValidateTimeRange (loc : Location) (now startTime endTime : Time)
    : option RangeError :=
  let start := time_In startTime loc in
  let end_ := time_In endTime loc in
  if After start end_ then Some ErrStartAfterEnd
  else
    let now' := time_In now loc in
    if After end_ now' then Some ErrFutureEnd
    else if 365 * 24 * Hour <? Sub end_ start then Some ErrRangeTooLarge
    else None.

(* ================================================================= *)
(** ** Retry transport ([RetryTransport] in [internal/services]) *)

Definition is_digit (c : ascii) : bool :=
  let n := nat_of_ascii c in (48 <=? n)%nat && (n <=? 57)%nat.

Fixpoint digits_value (s : string) (acc : Z) : option Z :=
  match s with
  | EmptyString => Some acc
  | String c r =>
      if is_digit c then digits_value r (acc * 10 + Z.of_nat (nat_of_ascii c - 48))
      else None
  end.

(** [strconv.Atoi] (64-bit [int]): an optional sign, at least one
    decimal digit, and a value in range. *)
Definition Atoi (s : string) : option Z :=
  let '(neg, body) :=
    match s with
    | String c r =>
        if Ascii.eqb c "-"%char then (true, r)
        else if Ascii.eqb c "+"%char then (false, r)
        else (false, s)
    | EmptyString => (false, s)
    end in
  match body with
  | EmptyString => None
  | _ =>
      match digits_value body 0 with
      | None => None
      | Some v =>
          let x := if neg then - v else v in
          if (x <? minDuration) || (maxDuration <? x) then None else Some x
      end
  end.

(** [getRetryAfterDelay]: [header] is [resp.Header.Get("Retry-After")]
    ("" when absent), [parseRFC1123] is [time.Parse(time.RFC1123, _)]
    and [now] the clock read by [time.Until]. The result is a
    [time.Duration] in nanoseconds. *)
Definition getRetryAfterDelay (parseRFC1123 : string -> option Time) (now : Time)
    (header : string) : Z :=
  if String.eqb header "" then 60 * Second
  else
    match Atoi header with
    | Some seconds =>
        let seconds := if 300 <? seconds then 300 else seconds in
        let seconds := if seconds <? 1 then 1 else seconds in
        seconds * Second
    | None =>
        match parseRFC1123 header with
        | Some retryTime =>
            let delay := Sub retryTime now in
            let delay := if 5 * Minute <? delay then 5 * Minute else delay in
            let delay := if delay <? 1 * Second then 1 * Second else delay in
            delay
        | None => 60 * Second
        end
  end.

(** What [rt.Transport.RoundTrip(reqClone)] gives at one attempt. *)
Inductive AttemptResult :=
  | NetworkError
  | Response (statusCode : Z) (retryAfter : string).

(** A [time.Sleep] of the loop: linear backoff after a network error,
    or the Retry-After delay after a 429. *)
Inductive RetrySleep :=
  | SleepBackoff (d : Z)
  | SleepRetryAfter (d : Z).

Inductive RoundTripOutcome :=
  | ReturnResponse (statusCode : Z)
  | ReturnError
  | ReturnNothing.  (* [return resp, err] after the loop: both nil *)

Definition StatusTooManyRequests : Z := 429.

(** The loop [for attempt := 0; attempt <= rt.MaxRetries; attempt++],
    [fuel] counting the iterations left. [send k] and [clock k] are the
    transport's answer and the time at attempt [k]. *)
Fixpoint round_trip_loop (maxRetries : Z) (send : nat -> AttemptResult)
    (parseRFC1123 : string -> option Time) (clock : nat -> Time)
    (attempt : nat) (fuel : nat) : RoundTripOutcome * list RetrySleep :=
  match fuel with
  | O => (ReturnNothing, [])
  | S fuel' =>
      match send attempt with
      | NetworkError =>
          if Z.of_nat attempt =? maxRetries then (ReturnError, [])
          else
            let '(out, sleeps) :=
              round_trip_loop maxRetries send parseRFC1123 clock (S attempt) fuel' in
            (out, SleepBackoff ((Z.of_nat attempt + 1) * Second) :: sleeps)
      | Response status hdr =>
          if negb (status =? StatusTooManyRequests) then (ReturnResponse status, [])
          else if Z.of_nat attempt =? maxRetries then (ReturnResponse status, [])
          else
            let retryAfter := getRetryAfterDelay parseRFC1123 (clock attempt) hdr in
            let '(out, sleeps) :=
              round_trip_loop maxRetries send parseRFC1123 clock (S attempt) fuel' in
            (out, SleepRetryAfter retryAfter :: sleeps)
      end
  end.

(** [RetryTransport.RoundTrip] *)
Definition RoundTrip (maxRetries : Z) (send : nat -> AttemptResult)
    (parseRFC1123 : string -> option Time) (clock : nat -> Time)
    : RoundTripOutcome * list RetrySleep :=
  round_trip_loop maxRetries send parseRFC1123 clock 0 (Z.to_nat (maxRetries + 1)).


(** [RetryableSlackClient]: the retry count of the wrapper and the
    [MaxRetries] of the [RetryTransport] in its HTTP client. *)
Record RetryableSlackClient := mkRetryableSlackClient {
  rsc_transportMaxRetries : Z;
  rsc_maxRetries : Z
}.

(** [NewRetryableSlackClient] (the Slack client built around the
    transport is left out). *)
Definition NewRetryableSlackClient (maxRetries : Z) : RetryableSlackClient :=
  let maxRetries := if maxRetries <=? 0 then 3 else maxRetries in
  mkRetryableSlackClient maxRetries maxRetries.

(** The error an [apiCall] returns: a [*slack.RateLimitedError] with its
    [RetryAfter] field, or any other error. *)
Inductive ApiError :=
  | RateLimitedError (retryAfter : Z)
  | OtherError.

(** The loop of [RetryableAPICall]: [apiCall k] is the result of the
    [k]-th call ([None] for a nil error), [lastErr] the last error seen
    ([None] while nil). It returns [None] for a nil error and
    [Some lastErr] for the wrapping error, with the sleeps taken. *)
Fixpoint api_call_loop (maxRetries : Z) (apiCall : nat -> option ApiError)
    (attempt : nat) (fuel : nat) (lastErr : option ApiError)
    : option (option ApiError) * list Z :=
  match fuel with
  | O => (Some lastErr, [])
  | S fuel' =>
      match apiCall attempt with
      | None => (None, [])
      | Some err =>
          match err with
          | RateLimitedError ra =>
              if Z.of_nat attempt =? maxRetries then (Some (Some err), [])
              else
                let retryAfter := wrap64 (ra * Second) in
                let retryAfter := if 5 * Minute <? retryAfter then 5 * Minute else retryAfter in
                let '(out, sleeps) :=
                  api_call_loop maxRetries apiCall (S attempt) fuel' (Some err) in
                (out, retryAfter :: sleeps)
          | OtherError => (Some (Some err), [])
          end
      end
  end.

(** [RetryableSlackClient.RetryableAPICall] *)
Definition RetryableAPICall (r : RetryableSlackClient) (apiCall : nat -> option ApiError)
    : option (option ApiError) * list Z :=
  api_call_loop (rsc_maxRetries r) apiCall 0 (Z.to_nat (rsc_maxRetries r + 1)) None.


(* ================================================================= *)
(** ** Token store ([internal/auth/token_store.go]) *)

(** [utf8.DecodeRune]'s length of the rune at the head of [s], or 0
    where it answers [RuneError] with size 1. *)
Definition byte_in (lo hi : nat) (c : ascii) : bool :=
  (lo <=? nat_of_ascii c)%nat && (nat_of_ascii c <=? hi)%nat.

Definition rune_size (s : list ascii) : nat :=
  (match s with
  | [] => 0
  | c :: r =>
      let x := nat_of_ascii c in
      if (x <? 128)%nat then 1
      else if (x <? 194)%nat then 0
      else if (x <=? 223)%nat then
        match r with
        | c1 :: _ => if byte_in 128 191 c1 then 2 else 0
        | _ => 0
        end
      else if (x <=? 239)%nat then
        let lo := if (x =? 224)%nat then 160%nat else 128%nat in
        let hi := if (x =? 237)%nat then 159%nat else 191%nat in
        match r with
        | c1 :: c2 :: _ => if byte_in lo hi c1 && byte_in 128 191 c2 then 3 else 0
        | _ => 0
        end
      else if (x <=? 244)%nat then
        let lo := if (x =? 240)%nat then 144%nat else 128%nat in
        let hi := if (x =? 244)%nat then 143%nat else 191%nat in
        match r with
        | c1 :: c2 :: c3 :: _ =>
            if byte_in lo hi c1 && byte_in 128 191 c2 && byte_in 128 191 c3
            then 4 else 0
        | _ => 0
        end
      else 0
  end)%nat.

(** U+FFFD in UTF-8. *)
Definition replacement_char : list ascii :=
  [ascii_of_nat 239; ascii_of_nat 191; ascii_of_nat 189].

Fixpoint coerce_utf8_bytes (fuel : nat) (s : list ascii) : list ascii :=
  match fuel with
  | O => s
  | S fuel' =>
      match s with
      | [] => []
      | _ :: r =>
          match rune_size s with
          | O => replacement_char ++ coerce_utf8_bytes fuel' r
          | n => take n s ++ coerce_utf8_bytes fuel' (drop n s)
          end
      end
  end.

(** A string written by [encoding/json] and read back: every byte that
    does not start a valid UTF-8 sequence becomes U+FFFD. *)
Definition json_string (s : string) : string :=
  let b := String.list_ascii_of_string s in
  String.string_of_list_ascii (coerce_utf8_bytes (length b) b).

Definition valid_utf8 (s : string) : Prop := json_string s = s.

Record StoredToken := mkStoredToken {
  ServiceName : string;
  AccessToken : string;
  RefreshToken : string;
  TokenType : string;
  ExpiresAt : option Time;
  Scopes : list string;
  CreatedAt : Time;
  LastRefresh : option Time;
  EncryptedData : string
}.

(** [json.MarshalIndent] followed by [json.Unmarshal]. *)
Definition json_roundtrip (t : StoredToken) : StoredToken :=
  mkStoredToken (json_string (ServiceName t)) (json_string (AccessToken t))
    (json_string (RefreshToken t)) (json_string (TokenType t)) (ExpiresAt t)
    (map json_string (Scopes t)) (CreatedAt t) (LastRefresh t)
    (json_string (EncryptedData t)).

(** The store file, as [loadTokens] sees it. *)
Inductive StoreFile :=
  | FileMissing                            (* [os.IsNotExist] *)
  | FileBroken                             (* unreadable or not a JSON array *)
  | FileTokens (tokens : list StoredToken).

Inductive LoadError := ErrNotExist | ErrRead.

Definition loadTokens (f : StoreFile) : LoadError + list StoredToken :=
  match f with
  | FileMissing => inl ErrNotExist
  | FileBroken => inl ErrRead
  | FileTokens l => inr l
  end.

(** How [os.WriteFile] ends. *)
Inductive WriteOutcome :=
  | WriteOk
  | WriteOpenFailed      (* file untouched *)
  | WriteTruncated.      (* truncated, then the write failed *)

Inductive TokenError := ErrEncrypt | ErrLoadTokens | ErrWriteFile.

Definition saveTokens (w : WriteOutcome) (f : StoreFile) (tokens : list StoredToken)
    : option TokenError * StoreFile :=
  match w with
  | WriteOk => (None, FileTokens (map json_roundtrip tokens))
  | WriteOpenFailed => (Some ErrWriteFile, f)
  | WriteTruncated => (Some ErrWriteFile, FileBroken)
  end.

(** The [for i, token := range tokens] loop of [StoreToken]: replace the
    first token of [serviceName]; the flag is [found]. *)
Fixpoint replace_first (serviceName : string) (tok : StoredToken)
    (tokens : list StoredToken) : list StoredToken * bool :=
  match tokens with
  | [] => ([], false)
  | t :: r =>
      if String.eqb (ServiceName t) serviceName then (tok :: r, true)
      else let '(r', found) := replace_first serviceName tok r in (t :: r', found)
  end.

(** [TokenStore.StoreToken]: [encrypted] is the base64 text of
    [ts.encrypt(jsonData)], [None] when serialising or encrypting fails;
    [now] is [time.Now()]. *)
Definition StoreToken (encrypted : option string) (now : Time) (w : WriteOutcome)
    (serviceName accessToken refreshToken : string) (expiresAt : option Time)
    (scopes : list string) (f : StoreFile) : option TokenError * StoreFile :=
  match encrypted with
  | None => (Some ErrEncrypt, f)
  | Some enc =>
      let storedToken := mkStoredToken serviceName "" "" "access" None [] now None enc in
      match loadTokens f with
      | inl ErrRead => (Some ErrLoadTokens, f)
      | res =>
          let tokens := match res with inr l => l | inl _ => [] end in
          let '(tokens, found) := replace_first serviceName storedToken tokens in
          let tokens := if found then tokens else tokens ++ [storedToken] in
          saveTokens w f tokens
      end
  end.

Fixpoint set_first_refresh (serviceName : string) (now : Time)
    (tokens : list StoredToken) : list StoredToken :=
  match tokens with
  | [] => []
  | t :: r =>
      if String.eqb (ServiceName t) serviceName then
        mkStoredToken (ServiceName t) (AccessToken t) (RefreshToken t) (TokenType t)
          (ExpiresAt t) (Scopes t) (CreatedAt t) (Some now) (EncryptedData t) :: r
      else t :: set_first_refresh serviceName now r
  end.

(** [TokenStore.UpdateRefreshTime] *)
Definition UpdateRefreshTime (now : Time) (w : WriteOutcome) (serviceName : string)
    (f : StoreFile) : option TokenError * StoreFile :=
  match loadTokens f with
  | inl _ => (Some ErrLoadTokens, f)
  | inr tokens => saveTokens w f (set_first_refresh serviceName now tokens)
  end.

(** [TokenStore.DeleteToken] *)
Definition DeleteToken (w : WriteOutcome) (serviceName : string) (f : StoreFile)
    : option TokenError * StoreFile :=
  match loadTokens f with
  | inl _ => (Some ErrLoadTokens, f)
  | inr tokens =>
      saveTokens w f
        (List.filter (fun t => negb (String.eqb (ServiceName t) serviceName)) tokens)
  end.

Inductive TokenOp :=
  | OpStoreToken (encrypted : option string) (now : Time) (w : WriteOutcome)
      (serviceName accessToken refreshToken : string) (expiresAt : option Time)
      (scopes : list string)
  | OpUpdateRefreshTime (now : Time) (w : WriteOutcome) (serviceName : string)
  | OpDeleteToken (w : WriteOutcome) (serviceName : string).

Definition op_service (op : TokenOp) : string :=
  match op with
  | OpStoreToken _ _ _ s _ _ _ _ => s
  | OpUpdateRefreshTime _ _ s => s
  | OpDeleteToken _ s => s
  end.

Definition run_token_op (f : StoreFile) (op : TokenOp) : StoreFile :=
  match op with
  | OpStoreToken enc now w s a r e sc => snd (StoreToken enc now w s a r e sc f)
  | OpUpdateRefreshTime now w s => snd (UpdateRefreshTime now w s f)
  | OpDeleteToken w s => snd (DeleteToken w s f)
  end.

Definition run_token_ops (f : StoreFile) (ops : list TokenOp) : StoreFile :=
  fold_left run_token_op ops f.

(** The fields [GetToken] reads from the decrypted JSON object
    [tokenData]: [None] where the key is absent or not of the expected
    JSON type; a scope that is not a string is [None]. *)
Record TokenPayload := mkTokenPayload {
  pl_access_token : option string;
  pl_refresh_token : option string;
  pl_scopes : option (list (option string));
  pl_expires_at : option string
}.

Inductive GetTokenError :=
  | ErrGetLoad        (* loadTokens failed *)
  | ErrGetDecrypt     (* base64 decoding, decryption or parsing failed *)
  | ErrGetNotFound.   (* no token for the service *)

(** The field updates of [GetToken] on the found token;
    [parseRFC3339] is [time.Parse(time.RFC3339, _)]. *)
Definition apply_payload (parseRFC3339 : string -> option Time) (p : TokenPayload)
    (token : StoredToken) : StoredToken :=
  let accessToken := match pl_access_token p with Some a => a | None => AccessToken token end in
  let refreshToken := match pl_refresh_token p with Some r => r | None => RefreshToken token end in
  let scopes := match pl_scopes p with
                | Some l => map (fun x => match x with Some sc => sc | None => "" end) l
                | None => Scopes token
                end in
  let expiresAt := match pl_expires_at p with
                   | Some str =>
                       if String.eqb str "" then ExpiresAt token
                       else match parseRFC3339 str with
                            | Some t => Some t
                            | None => ExpiresAt token
                            end
                   | None => ExpiresAt token
                   end in
  mkStoredToken (ServiceName token) accessToken refreshToken (TokenType token) expiresAt
    scopes (CreatedAt token) (LastRefresh token) (EncryptedData token).

(** The first token of [serviceName], as the [range] loop finds it. *)
Fixpoint find_token (serviceName : string) (tokens : list StoredToken) : option StoredToken :=
  match tokens with
  | [] => None
  | t :: r => if String.eqb (ServiceName t) serviceName then Some t else find_token serviceName r
  end.

(** [TokenStore.GetToken]: [openData] stands for base64 decoding,
    [ts.decrypt] and [json.Unmarshal] of [EncryptedData] ([None] when
    one of them fails). *)
Definition GetToken (openData : string -> option TokenPayload)
    (parseRFC3339 : string -> option Time) (serviceName : string) (f : StoreFile)
    : GetTokenError + StoredToken :=
  match loadTokens f with
  | inl _ => inl ErrGetLoad
  | inr tokens =>
      match find_token serviceName tokens with
      | None => inl ErrGetNotFound
      | Some token =>
          match openData (EncryptedData token) with
          | None => inl ErrGetDecrypt
          | Some p => inr (apply_payload parseRFC3339 p token)
          end
      end
  end.

(** [TokenStore.ListServices] *)
Definition ListServices (f : StoreFile) : LoadError + list string :=
  match loadTokens f with
  | inl err => inl err
  | inr tokens => inr (map ServiceName tokens)
  end.

(** [token] with [LastRefresh] set to [now]. *)
Definition with_last_refresh (now : Time) (token : StoredToken) : StoredToken :=
  mkStoredToken (ServiceName token) (AccessToken token) (RefreshToken token) (TokenType token)
    (ExpiresAt token) (Scopes token) (CreatedAt token) (Some now) (EncryptedData token).

(** A file as [saveTokens] leaves it: reading it back changes nothing. *)
Definition json_normal (tokens : list StoredToken) : Prop :=
  Forall (fun t => json_roundtrip t = t) tokens.

(** At most one token per service name in the file; what [json.Unmarshal]
    gives back is valid UTF-8. *)
Definition token_store_inv (f : StoreFile) : Prop :=
  match f with
  | FileTokens l => NoDup (map ServiceName l) /\ Forall valid_utf8 (map ServiceName l)
  | _ => True
  end.

(** The name ["\xff"]: one byte that starts no UTF-8 sequence. *)
Definition name_xff : string := String (ascii_of_nat 255) EmptyString.

Definition store_xff : TokenOp :=
  OpStoreToken (Some "c2VhbGVk") (mkTime 0 0) WriteOk name_xff "xoxb" "" None [].


Definition token_ops_sample : list TokenOp :=
  [OpStoreToken (Some "c2VhbGVk") (mkTime 0 0) WriteOk "slack" "xoxb" "" None [];
   OpStoreToken (Some "Z2gtc2VhbGVk") (mkTime 5 0) WriteOk "github" "ghp" "" None [];
   OpStoreToken (Some "bmV3") (mkTime 9 0) WriteOk "slack" "xoxb-2" "" None [];
   OpUpdateRefreshTime (mkTime 12 0) WriteOk "github";
   OpDeleteToken WriteOk "slack"].

(** One 429 carrying ["Retry-After: 900"], then a 200. *)
Definition send_429_then_ok (k : nat) : AttemptResult :=
  match k with
  | O => Response 429 "900"
  | _ => Response 200 ""
  end.


(* ================================================================= *)
(** ** Service initialisation and status ([EventCollector]) *)

(** The parts of [config.Config] the collector reads for one service. *)
Record ServiceConfig := mkServiceConfig {
  sc_Enabled : bool;
  sc_AccessToken : string
}.

Record Config := mkConfig {
  cfg_Slack : ServiceConfig;
  cfg_GitHub : ServiceConfig;
  cfg_GoogleCal : ServiceConfig
}.

(** The client constructors ([services.NewSlackClient],
    [services.NewGitHubClientWithConfig], [services.NewCalendarClient]):
    [newClient k s] is the outcome of the [k]-th constructor call of the
    initialisation, for service [s]; [None] is a constructor error. *)
Definition ClientFactory := nat -> string -> option ServiceClient.

(** [prioritizeCalendarService] *)
Fixpoint prioritize_loop (serviceNames prioritized others : list string) : list string :=
  match serviceNames with
  | [] => prioritized ++ others
  | serviceName :: rest =>
      if String.eqb serviceName "google_calendar"
      then prioritize_loop rest (prioritized ++ [serviceName]) others
      else prioritize_loop rest prioritized (others ++ [serviceName])
  end.

Definition prioritizeCalendarService (serviceNames : list string) : list string :=
  prioritize_loop serviceNames [] [].

Inductive InitError :=
  | ErrNoTargets                    (* no target service given *)
  | ErrServiceDisabled (s : string) (* service disabled in the config *)
  | ErrNoAccessToken (s : string)   (* access token not set *)
  | ErrClientInit (s : string)      (* client constructor failed *)
  | ErrUnknownService (s : string)  (* unknown service name *)
  | ErrNoServicesConfigured.        (* no enabled, configured service *)

(** The [for _, serviceName := range orderedServiceNames] loop of
    [InitializeServicesFor]; [k] counts the constructor calls. *)
Fixpoint init_for_loop (cfg : Config) (newClient : ClientFactory) (k : nat)
    (names : list string) (m : ServiceMap) : option InitError * ServiceMap :=
  match names with
  | [] => (None, m)
  | s :: rest =>
      if String.eqb s "slack" then
        if negb (sc_Enabled (cfg_Slack cfg)) then (Some (ErrServiceDisabled s), m)
        else if String.eqb (sc_AccessToken (cfg_Slack cfg)) "" then (Some (ErrNoAccessToken s), m)
        else match newClient k s with
             | None => (Some (ErrClientInit s), m)
             | Some c => init_for_loop cfg newClient (S k) rest (<["slack" := c]> m)
             end
      else if String.eqb s "github" then
        if negb (sc_Enabled (cfg_GitHub cfg)) then (Some (ErrServiceDisabled s), m)
        else if String.eqb (sc_AccessToken (cfg_GitHub cfg)) "" then (Some (ErrNoAccessToken s), m)
        else match newClient k s with
             | None => (Some (ErrClientInit s), m)
             | Some c => init_for_loop cfg newClient (S k) rest (<["github" := c]> m)
             end
      else if String.eqb s "google_calendar" then
        if negb (sc_Enabled (cfg_GoogleCal cfg)) then (Some (ErrServiceDisabled s), m)
        else match newClient k s with
             | None => (Some (ErrClientInit s), m)
             | Some c => init_for_loop cfg newClient (S k) rest (<["google_calendar" := c]> m)
             end
      else (Some (ErrUnknownService s), m)
  end.

(** [EventCollector.InitializeServicesFor]: returns the error and the
    new [ec.services] (reset to an empty map first, so on an error it
    holds the clients built before it). *)
Definition InitializeServicesFor (cfg : Config) (newClient : ClientFactory)
    (serviceNames : list string) : option InitError * ServiceMap :=
  match serviceNames with
  | [] => (Some ErrNoTargets, ∅)
  | _ =>
      let '(r, m) := init_for_loop cfg newClient 0 (prioritizeCalendarService serviceNames) ∅ in
      match r with
      | Some err => (Some err, m)
      | None => if decide (m = ∅) then (Some ErrNoServicesConfigured, m) else (None, m)
      end
  end.

(** One [if cond { client, err := New...(); if err == nil { ec.services[s] = client } }]
    block of [InitializeServices]; the constructor error is only logged. *)
Definition init_if (newClient : ClientFactory) (cond : bool) (s : string)
    (acc : nat * ServiceMap) : nat * ServiceMap :=
  let '(k, m) := acc in
  if cond then
    (S k, match newClient k s with
          | Some c => <[s := c]> m
          | None => m
          end)
  else (k, m).

(** [EventCollector.InitializeServices] *)
Definition InitializeServices (cfg : Config) (newClient : ClientFactory)
    : option InitError * ServiceMap :=
  let acc := init_if newClient
    (sc_Enabled (cfg_Slack cfg) && negb (String.eqb (sc_AccessToken (cfg_Slack cfg)) ""))
    "slack" (0%nat, ∅) in
  let acc := init_if newClient
    (sc_Enabled (cfg_GitHub cfg) && negb (String.eqb (sc_AccessToken (cfg_GitHub cfg)) ""))
    "github" acc in
  let acc := init_if newClient (sc_Enabled (cfg_GoogleCal cfg)) "google_calendar" acc in
  let m := acc.2 in
  if decide (m = ∅) then (Some ErrNoServicesConfigured, m) else (None, m).

Record ServiceStatus := mkServiceStatus {
  st_Name : string;
  st_Enabled : bool;
  st_Authenticated : bool;
  st_Initialized : bool
}.

(** [isGCloudAuthenticated] *)
Definition isGCloudAuthenticated : bool := true.

(** [isServiceAuthenticated] *)
Definition isServiceAuthenticated (cfg : Config) (serviceName : string) : bool :=
  if String.eqb serviceName "slack" then negb (String.eqb (sc_AccessToken (cfg_Slack cfg)) "")
  else if String.eqb serviceName "github" then negb (String.eqb (sc_AccessToken (cfg_GitHub cfg)) "")
  else if String.eqb serviceName "google_calendar" then
    negb (String.eqb (sc_AccessToken (cfg_GoogleCal cfg)) "") || isGCloudAuthenticated
  else false.

(** [isServiceEnabled] *)
Definition isServiceEnabled (cfg : Config) (serviceName : string) : bool :=
  if String.eqb serviceName "slack" then sc_Enabled (cfg_Slack cfg)
  else if String.eqb serviceName "github" then sc_Enabled (cfg_GitHub cfg)
  else if String.eqb serviceName "google_calendar" then sc_Enabled (cfg_GoogleCal cfg)
  else false.

(** [isServiceInitialized] *)
Definition isServiceInitialized (services : ServiceMap) (serviceName : string) : bool :=
  bool_decide (is_Some (services !! serviceName)).

(** [EventCollector.GetServiceStatus] *)
Definition GetServiceStatus (cfg : Config) (services : ServiceMap) : gmap string ServiceStatus :=
  fold_left (fun status serviceName =>
      <[serviceName := mkServiceStatus serviceName (isServiceEnabled cfg serviceName)
                         (isServiceAuthenticated cfg serviceName)
                         (isServiceInitialized services serviceName)]> status)
    ["slack"; "github"; "google_calendar"] ∅.

(* ================================================================= *)
(** ** Collect and store *)

Inductive StoreError :=
  | ErrCollectFailed (err : CollectError)  (* event collection failed *)
  | ErrStoreFailed (err : DbError).        (* saving the events failed *)

(** [EventCollector.CollectAndStore]: the error, the database after the
    call and the statements run against it. *)
Definition CollectAndStore (sched : Schedule) (ok : nat -> bool) (now : Z)
    (services : ServiceMap) (db : DB) (startTime endTime : Time)
    (serviceNames : list string) : option StoreError * DB * list (SqlOp * bool) :=
  match (CollectEvents sched services startTime endTime serviceNames).1 with
  | CollectErr err => (Some (ErrCollectFailed err), db, [])
  | CollectOk [] => (None, db, [])
  | CollectOk events =>
      let '(r, db', log) := InsertEvents ok now db events in
      match r with
      | Some err => (Some (ErrStoreFailed err), db', log)
      | None => (None, db', log)
      end
  end.


Definition api_429_then_ok (k : nat) : option ApiError :=
  match k with
  | O => Some (RateLimitedError 2)
  | _ => None
  end.

Definition sample_tokens : list StoredToken :=
  [mkStoredToken "github" "" "" "access" None [] t_base None "c2VhbGVk";
   mkStoredToken "slack" "" "" "access" None [] t_base None "eG94Yg=="].

(** Proof-side helpers for the service set-up code. *)
Definition is_calendar (s : string) : bool := String.eqb s "google_calendar".

Definition service_ready (cfg : Config) (s : string) : bool :=
  isServiceEnabled cfg s && isServiceAuthenticated cfg s.

(* ================================================================= *)
(** ** Proof-side notions *)

Definition ts_le (a b : Event) : Prop := ts_key a <= ts_key b.

(** Invariant of the outer loop after [i] iterations: the last [i]
    slots are sorted and hold events no earlier than any in front. *)
Definition outer_inv (i : nat) (ev : list Event) : Prop :=
  exists u s, ev = u ++ s /\ length s = i /\ Sorted ts_le s /\
    Forall (fun a => Forall (ts_le a) s) u.

(** Every action of the transaction appends to the trace, and when it
    succeeds every statement it ran succeeded. *)
Definition trace_ok {A} (m : TxM A) : Prop :=
  forall st, exists new, tx_log (m st).2 = tx_log st ++ new /\
    (forall x, (m st).1 = inr x -> forall p, p ∈ new -> p.2 = true).

(* ================================================================= *)
(** * Proofs *)

(* ----------------------------------------------------------------- *)
(** ** The bubble sort *)

Section BubbleSort.

Lemma bubble_step_noop (ev : list Event) (j : nat) :
  (length ev <= S j)%nat -> bubble_step ev j = ev.
Proof.
  intros Hj. unfold bubble_step.
  rewrite (lookup_ge_None_2 ev (S j)) by lia.
  by destruct (ev !! j).
Qed.

Lemma fold_bubble_noop (js : list nat) (ev : list Event) :
  Forall (fun j => length ev <= S j)%nat js -> fold_left bubble_step js ev = ev.
Proof.
  induction js as [|j js IH]; intros Hall; simpl; [done|].
  apply Forall_cons in Hall as [Hj Hall].
  rewrite bubble_step_noop by done. by apply IH.
Qed.

Lemma inner_loop_pass (m : nat) (p l : list Event) :
  fold_left bubble_step (seq (length p) m) (p ++ l) = p ++ pass m l.
Proof.
  revert p l. induction m as [|m IH]; intros p l; simpl; [done|].
  destruct l as [|x [|y r]].
  - rewrite bubble_step_noop by (rewrite length_app; simpl; lia).
    apply fold_bubble_noop. apply Forall_seq. rewrite length_app. simpl. lia.
  - rewrite bubble_step_noop by (rewrite length_app; simpl; lia).
    apply fold_bubble_noop. apply Forall_seq. rewrite length_app. simpl. lia.
  - unfold bubble_step.
    rewrite !lookup_app_r by lia. rewrite Nat.sub_diag.
    replace (S (length p) - length p)%nat with 1%nat by lia. simpl.
    destruct (After (Timestamp x) (Timestamp y)).
    + rewrite !insert_app_r_alt by (try rewrite length_app; lia).
      rewrite Nat.sub_diag. replace (S (length p) - length p)%nat with 1%nat by lia.
      simpl. replace (p ++ y :: x :: r) with ((p ++ [y]) ++ x :: r)
        by (rewrite <- app_assoc; done).
      replace (S (length p)) with (length (p ++ [y]))
        by (rewrite length_app; simpl; lia).
      rewrite IH. rewrite <- app_assoc. done.
    + replace (p ++ x :: y :: r) with ((p ++ [x]) ++ y :: r)
        by (rewrite <- app_assoc; done).
      replace (S (length p)) with (length (p ++ [x]))
        by (rewrite length_app; simpl; lia).
      rewrite IH. rewrite <- app_assoc. done.
Qed.

Lemma inner_loop_eq (n i : nat) (ev : list Event) :
  inner_loop n i ev = pass (n - i - 1) ev.
Proof.
  unfold inner_loop. apply (inner_loop_pass _ [] ev).
Qed.

Lemma pass_perm (m : nat) (l : list Event) : pass m l ≡ₚ l.
Proof.
  revert l. induction m as [|m IH]; intros l; [done|].
  destruct l as [|x [|y r]]; simpl; [done|done|].
  destruct (After (Timestamp x) (Timestamp y)).
  - rewrite IH. by constructor.
  - by rewrite IH.
Qed.

Lemma pass_length (m : nat) (l : list Event) : length (pass m l) = length l.
Proof. apply Permutation_length, pass_perm. Qed.

Lemma pass_filter_key (m : nat) (l : list Event) (k : Z) :
  List.filter (fun e => ts_key e =? k) (pass m l)
  = List.filter (fun e => ts_key e =? k) l.
Proof.
  revert l. induction m as [|m IH]; intros l; [done|].
  destruct l as [|x [|y r]]; simpl; [done|done|].
  unfold After. destruct (t_unix_ns (Timestamp y) <? t_unix_ns (Timestamp x)) eqn:Hxy.
  - simpl. rewrite IH. simpl. apply Z.ltb_lt in Hxy. unfold ts_key.
    destruct (t_unix_ns (Timestamp y) =? k) eqn:Hy;
    destruct (t_unix_ns (Timestamp x) =? k) eqn:Hx; try done.
    apply Z.eqb_eq in Hx, Hy. lia.
  - simpl. rewrite IH. done.
Qed.

Lemma pass_app (m : nat) (l s : list Event) :
  length l = S m -> pass m (l ++ s) = pass m l ++ s.
Proof.
  revert l. induction m as [|m IH]; intros l Hl.
  - destruct l as [|x [|y r]]; simpl in *; try lia. destruct s; done.
  - destruct l as [|x [|y r]]; simpl in *; try lia.
    destruct (After (Timestamp x) (Timestamp y)).
    + simpl. f_equal. apply (IH (x :: r)). simpl. lia.
    + simpl. f_equal. apply (IH (y :: r)). simpl. lia.
Qed.

Lemma pass_last (m : nat) (l : list Event) :
  length l = S m ->
  exists l' mx, pass m l = l' ++ [mx] /\
    Forall (fun e => ts_key e <= ts_key mx) l.
Proof.
  revert l. induction m as [|m IH]; intros l Hl.
  - destruct l as [|x [|y r]]; simpl in *; try lia.
    exists [], x. split; [done|]. constructor; [lia|constructor].
  - destruct l as [|x [|y r]]; simpl in *; try lia.
    unfold After. destruct (t_unix_ns (Timestamp y) <? t_unix_ns (Timestamp x)) eqn:Hxy.
    + apply Z.ltb_lt in Hxy.
      destruct (IH (x :: r)) as (l' & mx & Heq & Hall); [simpl; lia|].
      exists (y :: l'), mx. rewrite Heq. split; [done|].
      apply Forall_cons in Hall as [Hx Hr].
      constructor; [done|]. constructor; [unfold ts_key in *; lia|done].
    + apply Z.ltb_ge in Hxy.
      destruct (IH (y :: r)) as (l' & mx & Heq & Hall); [simpl; lia|].
      exists (x :: l'), mx. rewrite Heq. split; [done|].
      apply Forall_cons in Hall as [Hy Hr].
      constructor; [unfold ts_key in *; lia|]. by constructor.
Qed.

Lemma outer_inv_step (n i : nat) (ev : list Event) :
  length ev = n -> (i < n - 1)%nat -> outer_inv i ev ->
  outer_inv (S i) (pass (n - i - 1) ev).
Proof.
  intros Hlen Hi (u & s & -> & Hs & Hsorted & Hus).
  rewrite length_app in Hlen.
  rewrite pass_app by lia.
  destruct (pass_last (n - i - 1) u) as (u' & mx & Heq & Hmx); [lia|].
  rewrite Heq. exists u', (mx :: s). repeat split.
  - by rewrite <- app_assoc.
  - simpl. lia.
  - constructor; [done|].
    destruct s as [|b s]; constructor.
    assert (Hin : mx ∈ u).
    { rewrite <- (pass_perm (n - i - 1) u), Heq. set_solver. }
    rewrite Forall_forall in Hus. specialize (Hus mx Hin).
    by apply Forall_cons in Hus as [? _].
  - assert (Hperm : u' ++ [mx] ≡ₚ u) by (rewrite <- Heq; apply pass_perm).
    rewrite Forall_forall in Hus |- *. intros a Ha.
    assert (Hau : a ∈ u) by (rewrite <- Hperm; set_solver).
    constructor.
    + rewrite Forall_forall in Hmx. by apply Hmx.
    + by apply Hus.
Qed.

Lemma outer_loop_inv (events : list Event) (i : nat) :
  (i <= length events - 1)%nat ->
  let ev := fold_left (fun ev i => inner_loop (length events) i ev) (seq 0 i) events in
  length ev = length events /\ ev ≡ₚ events /\ outer_inv i ev /\
  forall k, List.filter (fun e => ts_key e =? k) ev
            = List.filter (fun e => ts_key e =? k) events.
Proof.
  induction i as [|i IH]; intros Hi; cbv zeta.
  - simpl. split; [done|]. split; [done|]. split; [|done].
    exists events, []. rewrite app_nil_r. repeat split; [constructor|].
    rewrite Forall_forall. intros; constructor.
  - destruct IH as (Hlen & Hperm & Hinv & Hfil); [lia|].
    rewrite seq_S, fold_left_app. simpl. rewrite inner_loop_eq.
    set (ev := fold_left _ (seq 0 i) events) in *.
    split; [by rewrite pass_length|].
    split; [by rewrite pass_perm|].
    split; [apply outer_inv_step; [done|lia|done]|].
    intros k. by rewrite pass_filter_key.
Qed.

Lemma sortEventsByTimestamp_sorted_perm (events : list Event) :
  sortEventsByTimestamp events ≡ₚ events /\
  Sorted ts_le (sortEventsByTimestamp events) /\
  forall k, List.filter (fun e => ts_key e =? k) (sortEventsByTimestamp events)
            = List.filter (fun e => ts_key e =? k) events.
Proof.
  destruct (outer_loop_inv events (length events - 1)) as (Hlen & Hperm & Hinv & Hfil);
    [lia|].
  unfold sortEventsByTimestamp. cbv zeta.
  set (ev := fold_left _ _ events) in *.
  split; [done|]. split; [|done].
  destruct Hinv as (u & s & Heq & Hs & Hsorted & Hus).
  rewrite Heq. rewrite Heq, length_app in Hlen.
  destruct u as [|x [|y u]]; simpl in *.
  - done.
  - constructor; [done|]. apply Forall_cons in Hus as [Hx _].
    destruct s as [|b s]; constructor. by apply Forall_cons in Hx as [? _].
  - lia.
Qed.

End BubbleSort.

(* ----------------------------------------------------------------- *)
(** ** The collector *)

Section Collector.

Lemma concat_map_perm {A B} (f : A -> list B) (l1 l2 : list A) :
  l1 ≡ₚ l2 -> concat (map f l1) ≡ₚ concat (map f l2).
Proof.
  induction 1 as [|x l1 l2 _ IH|x y l|l1 l2 l3 _ IH1 _ IH2]; simpl.
  - done.
  - by rewrite IH.
  - rewrite !app_assoc. apply Permutation_app_tail, Permutation_app_comm.
  - by rewrite IH1.
Qed.

Lemma collect_loop_spec (startTime endTime : Time)
    (workers : list (string * ServiceClient)) (acc : list Event) (called : list string) :
  collect_loop startTime endTime workers acc called
  = (acc ++ concat (map (fun nc => fetched startTime endTime nc.2) workers),
     called ++ map fst workers).
Proof.
  revert acc called. induction workers as [|[n c] ws IH]; intros acc called; simpl.
  - by rewrite !app_nil_r.
  - unfold fetched at 1. destruct (c startTime endTime); rewrite IH.
    + by rewrite <- !app_assoc.
    + by rewrite <- !app_assoc.
Qed.

Lemma select_fold_lookup (services : ServiceMap) (names : list string)
    (m0 : ServiceMap) (w0 : list string) (n : string) :
  let r := fold_left (select_step services) names (m0, w0) in
  r.1 !! n = (match services !! n with
              | Some c => if decide (n ∈ names) then Some c else m0 !! n
              | None => m0 !! n
              end) /\
  r.2 = w0 ++ List.filter (fun x => bool_decide (services !! x = None)) names.
Proof.
  revert m0 w0. induction names as [|x names IH]; intros m0 w0; cbn [fold_left].
  - cbn [List.filter]. rewrite app_nil_r. split; [|done].
    destruct (services !! n); [|done]. rewrite decide_False; [done|]. set_solver.
  - assert (Hstep : select_step services (m0, w0) x
      = match services !! x with
        | Some c => (<[x:=c]> m0, w0)
        | None => (m0, w0 ++ [x])
        end) by reflexivity.
    rewrite Hstep. cbn [List.filter].
    destruct (services !! x) as [cx|] eqn:Hx.
    + destruct (IH (<[x:=cx]> m0) w0) as [H1 H2]. split.
      * rewrite H1. destruct (decide (n = x)) as [->|Hne].
        -- rewrite Hx, lookup_insert_eq.
           destruct (decide (x ∈ names)); rewrite decide_True by set_solver; done.
        -- rewrite lookup_insert_ne by done.
           destruct (services !! n); [|done].
           destruct (decide (n ∈ names)), (decide (n ∈ x :: names)); set_solver.
      * rewrite H2. rewrite bool_decide_false by congruence. done.
    + destruct (IH m0 (w0 ++ [x])) as [H1 H2]. split.
      * rewrite H1. destruct (services !! n) eqn:Hn; [|done].
        assert (n <> x) by congruence.
        destruct (decide (n ∈ names)), (decide (n ∈ x :: names)); set_solver.
      * rewrite H2. rewrite bool_decide_true by done. by rewrite <- app_assoc.
Qed.

Lemma servicesToCollect_lookup (services : ServiceMap) (names : list string) (n : string) :
  names <> [] ->
  (servicesToCollect services names).1 !! n
    = (if decide (n ∈ names) then services !! n else None) /\
  (servicesToCollect services names).2
    = List.filter (fun x => bool_decide (services !! x = None)) names.
Proof.
  intros Hne. unfold servicesToCollect. destruct names as [|x names]; [done|].
  destruct (select_fold_lookup services (x :: names) ∅ [] n) as [H1 H2].
  split; [|done]. rewrite H1, lookup_empty.
  destruct (services !! n); by destruct (decide _).
Qed.

Lemma CollectEvents_unfold (sched : Schedule) (services : ServiceMap)
    (startTime endTime : Time) (names : list string) :
  CollectEvents sched services startTime endTime names
  = let m := (servicesToCollect services names).1 in
    let warns := (servicesToCollect services names).2 in
    if decide (m = ∅) then (CollectErr ErrNoServicesAvailable, mkTrace [] warns)
    else (CollectOk (sortEventsByTimestamp
            (concat (map (fun nc => fetched startTime endTime nc.2) (sched m)))),
          mkTrace (map fst (sched m)) warns).
Proof.
  unfold CollectEvents. destruct (servicesToCollect services names) as [m warns].
  simpl. destruct (decide (m = ∅)); [done|].
  by rewrite collect_loop_spec.
Qed.

End Collector.

(* ----------------------------------------------------------------- *)
(** ** Properties of the collector and its sort *)

Section CollectorProperties.

Example CollectEvents_test_partial :
  (CollectEvents map_to_list ok_and_failed t_base (t_plus 1440) []).1
  = CollectOk [mk_test_event "ok-1" (t_plus 1); mk_test_event "ok-2" (t_plus 2)].
Proof. vm_compute. reflexivity. Qed.

Lemma concat_map_nil {A B} (f : A -> list B) (l : list A) :
  (forall x, x ∈ l -> f x = []) -> concat (map f l) = [].
Proof.
  induction l as [|x l IH]; intros Hall; simpl; [done|].
  rewrite Hall by set_solver. apply IH. set_solver.
Qed.

Lemma schedule_elem (sched : Schedule) (m : ServiceMap) (n : string) (c : ServiceClient) :
  valid_schedule sched -> (n, c) ∈ sched m <-> m !! n = Some c.
Proof.
  intros Hs. rewrite (Hs m). apply elem_of_map_to_list.
Qed.

Lemma map_fst_elem {B} (l : list (string * B)) (n : string) :
  n ∈ map fst l <-> exists c, (n, c) ∈ l.
Proof.
  rewrite list_elem_of_In, in_map_iff. split.
  - intros ([n' c] & <- & Hin). exists c. by apply list_elem_of_In.
  - intros [c Hin]. exists (n, c). split; [done|]. by apply list_elem_of_In.
Qed.

Lemma map_fst_fmap {B} (l : list (string * B)) : map fst l = l.*1.
Proof. induction l as [|x l IH]; simpl; [done|]. by rewrite IH. Qed.

Lemma candidates_empty_iff (services : ServiceMap) (names : list string) :
  names <> [] ->
  (servicesToCollect services names).1 = ∅ <-> forall n, n ∈ names -> services !! n = None.
Proof.
  intros Hne. rewrite map_empty. split.
  - intros Hnone n Hn. specialize (Hnone n).
    destruct (servicesToCollect_lookup services names n Hne) as [H1 _].
    rewrite H1, decide_True in Hnone by done. done.
  - intros Hnone n.
    destruct (servicesToCollect_lookup services names n Hne) as [H1 _].
    rewrite H1. destruct (decide (n ∈ names)); [by apply Hnone|done].
Qed.

Lemma sortEventsByTimestamp_nil : sortEventsByTimestamp [] = [].
Proof. reflexivity. Qed.


(** C1 (counterexample): with the single candidate service failing,
    [CollectEvents] returns no error, only an empty event list. *)
Lemma CollectEvents_all_failed_no_error :
  (CollectEvents map_to_list only_failed t_base (t_plus 1440) []).1 = CollectOk [] /\
  ~ (exists err, (CollectEvents map_to_list only_failed t_base (t_plus 1440) []).1
                 = CollectErr err).
Proof.
  vm_compute. split; [reflexivity|]. intros [err Herr]. discriminate.
Qed.

(** C1 (as amended): [CollectEvents] returns an error exactly when the
    candidate set left by the service filter is empty; when every
    candidate's fetch fails it returns an empty list and no error. *)
Theorem CollectEvents_error_iff_no_candidates (sched : Schedule) (services : ServiceMap)
    (startTime endTime : Time) (names : list string) :
  valid_schedule sched ->
  ((exists err, (CollectEvents sched services startTime endTime names).1 = CollectErr err)
     <-> (servicesToCollect services names).1 = ∅) /\
  ((forall n c, (servicesToCollect services names).1 !! n = Some c ->
                exists msg, c startTime endTime = FetchErr msg) ->
   (servicesToCollect services names).1 <> ∅ ->
   (CollectEvents sched services startTime endTime names).1 = CollectOk []).
Proof.
  intros Hs. rewrite CollectEvents_unfold. cbv zeta.
  set (m := (servicesToCollect services names).1).
  destruct (decide (m = ∅)) as [Hm|Hm]; simpl.
  - split; [split; [done|intros _; by exists ErrNoServicesAvailable]|].
    intros _ Hne. done.
  - split; [split; [intros [err Herr]; discriminate|done]|].
    intros Hfail _. rewrite concat_map_nil; [done|].
    intros [n c] Hin. apply (schedule_elem sched m n c Hs) in Hin.
    destruct (Hfail n c Hin) as [msg Hmsg]. unfold fetched. simpl. by rewrite Hmsg.
Qed.

(** C2: when at least one candidate's fetch succeeds, [CollectEvents]
    returns no error and exactly the multiset union of the successful
    services' events, sorted ascending by timestamp; failing services
    contribute nothing. *)
Theorem CollectEvents_partial_success (sched : Schedule) (services : ServiceMap)
    (startTime endTime : Time) (names : list string) :
  valid_schedule sched ->
  (exists n c evs, (servicesToCollect services names).1 !! n = Some c /\
                   c startTime endTime = FetchOk evs) ->
  exists r, (CollectEvents sched services startTime endTime names).1 = CollectOk r /\
    r ≡ₚ successful_events startTime endTime (servicesToCollect services names).1 /\
    Sorted ts_le r.
Proof.
  intros Hs (n & c & evs & Hn & _). rewrite CollectEvents_unfold. cbv zeta.
  set (m := (servicesToCollect services names).1) in *.
  destruct (decide (m = ∅)) as [Hm|Hm].
  { rewrite Hm, lookup_empty in Hn. discriminate. }
  simpl. eexists. split; [reflexivity|].
  destruct (sortEventsByTimestamp_sorted_perm
    (concat (map (fun nc => fetched startTime endTime nc.2) (sched m))))
    as (Hperm & Hsorted & _).
  split; [|done].
  rewrite Hperm. unfold successful_events. apply concat_map_perm, Hs.
Qed.

(** C7: with a non-empty service filter, exactly the named services
    that are initialised have their fetch invoked, each once; unknown
    names are only warned about, and the call fails only when no named
    service is initialised. *)
Theorem CollectEvents_respects_filter (sched : Schedule) (services : ServiceMap)
    (startTime endTime : Time) (names : list string) :
  valid_schedule sched -> names <> [] ->
  let out := CollectEvents sched services startTime endTime names in
  NoDup (calls out.2) /\
  (forall n, n ∈ calls out.2 <-> n ∈ names /\ is_Some (services !! n)) /\
  warnings out.2 = List.filter (fun x => bool_decide (services !! x = None)) names /\
  ((exists err, out.1 = CollectErr err) <-> forall n, n ∈ names -> services !! n = None).
Proof.
  intros Hs Hne. cbv zeta. rewrite CollectEvents_unfold. cbv zeta.
  pose proof (candidates_empty_iff services names Hne) as Hempty.
  set (m := (servicesToCollect services names).1) in *.
  assert (Hw : (servicesToCollect services names).2
               = List.filter (fun x => bool_decide (services !! x = None)) names)
    by (apply (servicesToCollect_lookup services names "" Hne)).
  destruct (decide (m = ∅)) as [Hm|Hm]; simpl.
  - split; [constructor|]. split.
    + intros n. split; [intros Hin; inversion Hin|].
      intros [Hn [c Hc]]. pose proof (proj1 Hempty Hm) as Hnone.
      rewrite (Hnone n Hn) in Hc. discriminate.
    + split; [done|]. split; [intros _; by apply (proj1 Hempty)|intros _; eauto].
  - split.
    { rewrite map_fst_fmap. rewrite (Hs m). apply NoDup_fst_map_to_list. }
    split.
    + intros n. rewrite map_fst_elem. split.
      * intros [c Hc]. apply (schedule_elem sched m n c Hs) in Hc.
        destruct (servicesToCollect_lookup services names n Hne) as [H1 _].
        fold m in H1. rewrite H1 in Hc.
        destruct (decide (n ∈ names)); [by split; [|exists c]|discriminate].
      * intros [Hn [c Hc]]. exists c. apply (schedule_elem sched m n c Hs).
        destruct (servicesToCollect_lookup services names n Hne) as [H1 _].
        fold m in H1. rewrite H1. by rewrite decide_True.
    + split; [done|]. split; [intros [err Herr]; discriminate|].
      intros Hnone. exfalso. apply Hm. by apply (proj2 Hempty).
Qed.

(** C10: [sortEventsByTimestamp] returns a permutation of its input,
    ascending by timestamp, in which events with equal timestamps keep
    their input order (the subsequence of events at any one instant is
    unchanged). *)
Theorem sortEventsByTimestamp_stable (events : list Event) :
  sortEventsByTimestamp events ≡ₚ events /\
  Sorted ts_le (sortEventsByTimestamp events) /\
  (forall k : Z, List.filter (fun e => ts_key e =? k) (sortEventsByTimestamp events)
                 = List.filter (fun e => ts_key e =? k) events).
Proof. apply sortEventsByTimestamp_sorted_perm. Qed.

Lemma CollectEvents_error_iff_no_candidates_witness :
  valid_schedule map_to_list /\
  ((exists err, (CollectEvents map_to_list only_failed t_base (t_plus 1440) []).1
                = CollectErr err)
     <-> (servicesToCollect only_failed []).1 = ∅) /\
  ((forall n c, (servicesToCollect only_failed []).1 !! n = Some c ->
                exists msg, c t_base (t_plus 1440) = FetchErr msg) ->
   (servicesToCollect only_failed []).1 <> ∅ ->
   (CollectEvents map_to_list only_failed t_base (t_plus 1440) []).1 = CollectOk []).
Proof.
  split; [intros m; reflexivity|].
  apply CollectEvents_error_iff_no_candidates. intros m; reflexivity.
Defined.

Lemma CollectEvents_partial_success_witness :
  valid_schedule map_to_list /\
  (exists n c evs, (servicesToCollect ok_and_failed []).1 !! n = Some c /\
                   c t_base (t_plus 1440) = FetchOk evs) /\
  exists r, (CollectEvents map_to_list ok_and_failed t_base (t_plus 1440) []).1 = CollectOk r /\
    r ≡ₚ successful_events t_base (t_plus 1440) (servicesToCollect ok_and_failed []).1 /\
    Sorted ts_le r.
Proof.
  assert (Hs : valid_schedule map_to_list) by (intros m; reflexivity).
  assert (Hex : exists n c evs, (servicesToCollect ok_and_failed []).1 !! n = Some c /\
                   c t_base (t_plus 1440) = FetchOk evs).
  { exists "ok", svc_ok, [mk_test_event "ok-2" (t_plus 2); mk_test_event "ok-1" (t_plus 1)].
    split; reflexivity. }
  split; [exact Hs|]. split; [exact Hex|].
  exact (CollectEvents_partial_success map_to_list ok_and_failed t_base (t_plus 1440) [] Hs Hex).
Defined.

Lemma CollectEvents_respects_filter_witness :
  valid_schedule map_to_list /\ ["slack"] <> [] /\
  let out := CollectEvents map_to_list slack_and_github t_base (t_plus 1440) ["slack"] in
  NoDup (calls out.2) /\
  (forall n, n ∈ calls out.2 <-> n ∈ ["slack"] /\ is_Some (slack_and_github !! n)) /\
  warnings out.2 = List.filter (fun x => bool_decide (slack_and_github !! x = None)) ["slack"] /\
  ((exists err, out.1 = CollectErr err) <->
     forall n, n ∈ ["slack"] -> slack_and_github !! n = None).
Proof.
  assert (Hs : valid_schedule map_to_list) by (intros m; reflexivity).
  assert (Hne : ["slack"] <> []) by discriminate.
  split; [exact Hs|]. split; [exact Hne|].
  exact (CollectEvents_respects_filter map_to_list slack_and_github t_base (t_plus 1440)
           ["slack"] Hs Hne).
Defined.

Example CollectEvents_test_filter :
  (CollectEvents map_to_list slack_and_github t_base (t_plus 1440) ["slack"]).2
  = mkTrace ["slack"] [].
Proof. vm_compute. reflexivity. Qed.

End CollectorProperties.

(* ----------------------------------------------------------------- *)
(** ** The batch insert *)

Section InsertEventsProofs.

Lemma tx_bind_run {A B} (m : TxM A) (k : A -> TxM B) (st : TxState) :
  (m ≫= k) st = match m st with
                | (inl err, st') => (inl err, st')
                | (inr x, st') => k x st'
                end.
Proof. reflexivity. Qed.

Lemma trace_ok_ret {A} (x : A) : trace_ok (mret x : TxM A).
Proof. intros st. exists []. rewrite app_nil_r. split; [done|]. set_solver. Qed.

Lemma trace_ok_bind {A B} (m : TxM A) (k : A -> TxM B) :
  trace_ok m -> (forall x, trace_ok (k x)) -> trace_ok (m ≫= k).
Proof.
  intros Hm Hk st. rewrite tx_bind_run.
  destruct (Hm st) as (new1 & Hlog1 & Hok1).
  destruct (m st) as [[err|x] st'] eqn:Hrun; simpl in *.
  - exists new1. split; [done|]. intros ? Hc. discriminate.
  - destruct (Hk x st') as (new2 & Hlog2 & Hok2).
    exists (new1 ++ new2). split; [by rewrite Hlog2, Hlog1, app_assoc|].
    intros y Hy p Hp. apply elem_of_app in Hp as [Hp|Hp].
    + by apply (Hok1 x eq_refl).
    + by apply (Hok2 y Hy).
Qed.

Lemma trace_ok_exec (ok : nat -> bool) (op : SqlOp) (err : DbError) (eff : TxState -> TxState) :
  (forall st, tx_log (eff st) = tx_log st) -> trace_ok (exec_stmt ok op err eff).
Proof.
  intros Heff st. unfold exec_stmt. exists [(op, ok (tx_next st))].
  destruct (ok (tx_next st)) eqn:Hb; simpl.
  - rewrite Heff. simpl. split; [done|]. intros _ _ p Hp.
    apply list_elem_of_singleton in Hp as ->. done.
  - split; [done|]. intros ? Hc. discriminate.
Qed.

Lemma trace_ok_attachment_rows (ok : nat -> bool) (now : Z) (e : Event) (atts : list EventAttachment) :
  trace_ok (insert_attachment_rows ok now e atts).
Proof.
  induction atts as [|a atts IH]; simpl; [apply trace_ok_ret|].
  destruct (String.eqb (FileID a) ""); [done|].
  apply trace_ok_bind; [|intros; done]. by apply trace_ok_exec.
Qed.

Lemma trace_ok_attachments (ok : nat -> bool) (now : Z) (e : Event) :
  trace_ok (insertAttachmentsTx ok now e).
Proof.
  unfold insertAttachmentsTx. destruct (Attachments e) as [|a atts]; [apply trace_ok_ret|].
  apply trace_ok_bind; [by apply trace_ok_exec|]. intros. apply trace_ok_attachment_rows.
Qed.

Lemma trace_ok_event_rows (ok : nat -> bool) (now : Z) (events : list Event) :
  trace_ok (insert_event_rows ok now events).
Proof.
  induction events as [|e events IH]; simpl; [apply trace_ok_ret|].
  apply trace_ok_bind; [by apply trace_ok_exec|]. intros.
  apply trace_ok_bind; [apply trace_ok_attachments|]. intros. done.
Qed.

(** The attachment statements never touch the events table. *)
Lemma attachment_rows_events (ok : nat -> bool) (now : Z) (e : Event)
    (atts : list EventAttachment) (st : TxState) :
  tx_events (insert_attachment_rows ok now e atts st).2 = tx_events st.
Proof.
  revert st. induction atts as [|a atts IH]; intros st; simpl; [done|].
  destruct (String.eqb (FileID a) ""); [apply IH|].
  rewrite tx_bind_run. unfold exec_stmt.
  destruct (ok (tx_next st)); simpl; [by rewrite IH|done].
Qed.

Lemma attachments_events (ok : nat -> bool) (now : Z) (e : Event) (st : TxState) :
  tx_events (insertAttachmentsTx ok now e st).2 = tx_events st.
Proof.
  unfold insertAttachmentsTx. destruct (Attachments e) as [|a atts]; [done|].
  rewrite tx_bind_run. unfold exec_stmt.
  destruct (ok (tx_next st)); [|done].
  cbn -[insert_attachment_rows]. by rewrite attachment_rows_events.
Qed.

Lemma event_rows_success (ok : nat -> bool) (now : Z) (events : list Event)
    (st st' : TxState) (u : unit) :
  insert_event_rows ok now events st = (inr u, st') ->
  tx_events st' = upsert_all now events (tx_events st).
Proof.
  revert st. induction events as [|e events IH]; intros st Hrun; simpl in *.
  - by inversion Hrun.
  - rewrite tx_bind_run in Hrun. unfold exec_stmt in Hrun.
    destruct (ok (tx_next st)); simpl in Hrun; [|discriminate].
    rewrite tx_bind_run in Hrun.
    set (st1 := put_event now e _) in Hrun.
    pose proof (attachments_events ok now e st1) as Hatt.
    destruct (insertAttachmentsTx ok now e st1) as [[err|[]] st2]; [discriminate|].
    simpl in Hatt. rewrite (IH _ Hrun), Hatt. done.
Qed.

Lemma InsertEvents_success (ok : nat -> bool) (now : Z) (db db' : DB) (events : list Event)
    (log : list (SqlOp * bool)) :
  InsertEvents ok now db events = (None, db', log) ->
  events_table db' = upsert_all now events (events_table db).
Proof.
  unfold InsertEvents. rewrite !tx_bind_run. unfold exec_stmt at 1. simpl.
  destruct (ok 0%nat); simpl; [|discriminate].
  rewrite !tx_bind_run. unfold exec_stmt at 1. simpl.
  destruct (ok 1%nat); simpl; [|discriminate].
  rewrite !tx_bind_run.
  destruct (insert_event_rows ok now events _) as [[err|[]] st] eqn:Hrows; [discriminate|].
  apply event_rows_success in Hrows. simpl in Hrows.
  unfold exec_stmt. destruct (ok (tx_next st)); simpl; [|discriminate].
  intros Heq. inversion Heq. simpl. done.
Qed.

Lemma upsert_all_lookup (now : Z) (events : list Event) (m : gmap string EventRow) (id : string) :
  upsert_all now events m !! id
  = match last_event_with_id id events with
    | Some e => Some (event_row now e)
    | None => m !! id
    end.
Proof.
  unfold upsert_all.
  revert m. induction events as [|e events IH]; intros m; simpl; [done|].
  rewrite IH.
  destruct (last_event_with_id id events); [done|].
  destruct (String.eqb_spec (ID e) id) as [<-|Hne].
  - by rewrite lookup_insert_eq.
  - by rewrite lookup_insert_ne.
Qed.

Lemma upsert_all_dom (now : Z) (events : list Event) (m : gmap string EventRow) :
  dom (upsert_all now events m) = dom m ∪ list_to_set (map ID events).
Proof.
  unfold upsert_all.
  revert m. induction events as [|e events IH]; intros m; simpl.
  - set_solver.
  - rewrite IH, dom_insert_L. set_solver.
Qed.

Lemma InsertEvents_error_db (ok : nat -> bool) (now : Z) (db : DB) (events : list Event) :
  (InsertEvents ok now db events).1.1 <> None -> (InsertEvents ok now db events).1.2 = db.
Proof.
  unfold InsertEvents. match goal with |- context [match ?b with _ => _ end] =>
    destruct b as [[err|x] st] end; simpl; done.
Qed.

Lemma InsertEvents_trace (ok : nat -> bool) (now : Z) (db : DB) (events : list Event) :
  (InsertEvents ok now db events).1.1 = None ->
  forall p, p ∈ (InsertEvents ok now db events).2 -> p.2 = true.
Proof.
  unfold InsertEvents.
  match goal with |- context [match ?body ?st0 with _ => _ end] =>
    assert (Hok : trace_ok body); [|destruct (Hok st0) as (new & Hlog & Hall);
      destruct (body st0) as [[err|x] st]] end.
  - apply trace_ok_bind; [by apply trace_ok_exec|]. intros.
    apply trace_ok_bind; [by apply trace_ok_exec|]. intros.
    apply trace_ok_bind; [apply trace_ok_event_rows|]. intros.
    by apply trace_ok_exec.
  - simpl. discriminate.
  - simpl in *. intros _ p Hp. rewrite Hlog in Hp. by apply (Hall x eq_refl).
Qed.

(** C4: [InsertEvents] is atomic: when any statement of the batch (an
    event row, an attachment row, or the transaction's own statements)
    fails, the call returns an error and the database is left as it
    was; any error leaves the database unchanged. *)
Theorem InsertEvents_atomic (ok : nat -> bool) (now : Z) (db : DB) (events : list Event) :
  let out := InsertEvents ok now db events in
  (out.1.1 <> None -> out.1.2 = db) /\
  ((exists op, (op, false) ∈ out.2) -> out.1.1 <> None /\ out.1.2 = db).
Proof.
  cbv zeta. split; [apply InsertEvents_error_db|].
  intros [op Hop].
  assert (Herr : (InsertEvents ok now db events).1.1 <> None).
  { intros Hnone. pose proof (InsertEvents_trace ok now db events Hnone _ Hop). done. }
  split; [done|]. by apply InsertEvents_error_db.
Qed.

(** C3: after a successful [InsertEvents], running it again with the
    same events leaves the number of rows of [events] unchanged,
    whatever the second run's outcome; and the first run left, for every
    id, the row of the last event of the batch with that id (the rows of
    other ids untouched). *)
Theorem InsertEvents_idempotent (ok1 ok2 : nat -> bool) (now1 now2 : Z) (db db1 : DB)
    (events : list Event) (log1 : list (SqlOp * bool)) :
  InsertEvents ok1 now1 db events = (None, db1, log1) ->
  size (events_table (InsertEvents ok2 now2 db1 events).1.2) = size (events_table db1) /\
  (forall id, events_table db1 !! id
     = match last_event_with_id id events with
       | Some e => Some (event_row now1 e)
       | None => events_table db !! id
       end).
Proof.
  intros Hrun1. pose proof (InsertEvents_success _ _ _ _ _ _ Hrun1) as H1.
  split; [|intros id; rewrite H1; apply upsert_all_lookup].
  destruct (InsertEvents ok2 now2 db1 events) as [[res2 db2] log2] eqn:Hrun2.
  destruct res2 as [err|].
  - pose proof (InsertEvents_error_db ok2 now2 db1 events) as Hdb.
    rewrite Hrun2 in Hdb. simpl in *. rewrite Hdb; [done|discriminate].
  - apply InsertEvents_success in Hrun2. simpl.
    rewrite <- !size_dom. f_equal.
    rewrite Hrun2, H1, !upsert_all_dom. set_solver.
Qed.

Lemma InsertEvents_idempotent_witness :
  InsertEvents (fun _ => true) 7 empty_db sample_batch
    = (None, (InsertEvents (fun _ => true) 7 empty_db sample_batch).1.2,
       (InsertEvents (fun _ => true) 7 empty_db sample_batch).2) /\
  size (events_table (InsertEvents (fun n => negb (n =? 5)%nat) 9
          (InsertEvents (fun _ => true) 7 empty_db sample_batch).1.2 sample_batch).1.2)
    = size (events_table (InsertEvents (fun _ => true) 7 empty_db sample_batch).1.2) /\
  (forall id, events_table (InsertEvents (fun _ => true) 7 empty_db sample_batch).1.2 !! id
     = match last_event_with_id id sample_batch with
       | Some e => Some (event_row 7 e)
       | None => events_table empty_db !! id
       end).
Proof.
  assert (H : InsertEvents (fun _ => true) 7 empty_db sample_batch
    = (None, (InsertEvents (fun _ => true) 7 empty_db sample_batch).1.2,
       (InsertEvents (fun _ => true) 7 empty_db sample_batch).2))
    by (vm_compute; reflexivity).
  split; [exact H|].
  exact (InsertEvents_idempotent (fun _ => true) (fun n => negb (n =? 5)%nat) 7 9 empty_db _
           sample_batch _ H).
Defined.

Example InsertEvents_test_rows :
  size (events_table (InsertEvents (fun _ => true) 7 empty_db sample_batch).1.2) = 2%nat /\
  size (attachments_table (InsertEvents (fun _ => true) 7 empty_db sample_batch).1.2) = 1%nat.
Proof. vm_compute. split; reflexivity. Qed.

Example InsertEvents_test_failure :
  (InsertEvents (fun n => negb (n =? 5)%nat) 7 empty_db sample_batch).1
  = (Some (ErrInsertEvent "ok-1"), empty_db).
Proof. vm_compute. reflexivity. Qed.

End InsertEventsProofs.

(* ----------------------------------------------------------------- *)
(** ** The range query *)

Section GetEventsProofs.

Example go_format_test_tokyo :
  go_format (mkTime (1704067200 * Second + 500000000) 32400)
  = "2024-01-01 09:00:00.5+09:00".
Proof. vm_compute. reflexivity. Qed.

Example go_format_test_negative_offset :
  go_format (mkTime (1704067200 * Second) (-18000)) = "2023-12-31 19:00:00-05:00".
Proof. vm_compute. reflexivity. Qed.

Example go_format_test_utc :
  go_format (mkTime (951782400 * Second + 120000) 0) = "2000-02-29 00:00:00.00012+00:00".
Proof. vm_compute. reflexivity. Qed.

Lemma query_rows_elem (db : DB) (startTime endTime : Time) (services : list string)
    (ev : Event) :
  ev ∈ query_rows db startTime endTime services <->
  exists id row, events_table db !! id = Some row /\
    row_matches startTime endTime services row = true /\ ev = scan_row id row.
Proof.
  unfold query_rows. rewrite list_elem_of_In, in_map_iff. split.
  - intros ([id row] & <- & Hin). apply filter_In in Hin as [Hin Hm].
    apply list_elem_of_In, elem_of_map_to_list in Hin. by exists id, row.
  - intros (id & row & Hl & Hm & ->). exists (id, row). split; [done|].
    apply filter_In. split; [|done]. apply list_elem_of_In, elem_of_map_to_list. done.
Qed.

Lemma datetime_stored_eq (t : Time) :
  datetime_stored t = t_unix_ns t / Second + Z.rem (t_offset t) 60.
Proof.
  unfold datetime_stored. rewrite Z.div_add by (unfold Second; lia).
  rewrite (Z.rem_eq (t_offset t) 60) by lia. lia.
Qed.

(** A row stored 0.9996 s after 10:00:00 UTC is read as 10:00:00. *)
Example datetime_stored_fraction_capped :
  datetime_stored (mkTime (ten_oclock_ns + 999600000) 0) = ten_oclock_ns / Second.
Proof. vm_compute. reflexivity. Qed.

Lemma datetime_window (ts r s e : Z) :
  s / Second <= ts / Second + r <= e / Second ->
  s - Second < ts + r * Second < e + Second.
Proof. unfold Second. intros. Z.div_mod_to_equations. lia. Qed.

(** C5 (failing input): a row stored 0.2 s after 10:00:00 is returned
    by a query starting 0.7 s after 10:00:00, before which it lies. *)
Lemma GetEvents_subsecond_outside_range :
  GetEvents subsecond_db query_start query_end [] [scan_row "slack-1" subsecond_row] /\
  forall result, GetEvents subsecond_db query_start query_end [] result ->
    exists ev, ev ∈ result /\ t_unix_ns (Timestamp ev) < t_unix_ns query_start.
Proof.
  assert (Hq : query_rows subsecond_db query_start query_end []
               = [scan_row "slack-1" subsecond_row]) by (vm_compute; reflexivity).
  split.
  - split; [rewrite Hq; reflexivity|]. repeat constructor.
  - intros result [Hperm _]. exists (scan_row "slack-1" subsecond_row). split.
    + rewrite Hperm, Hq. by apply list_elem_of_singleton.
    + vm_compute. reflexivity.
Qed.

(** With zones mixed, the order of [ORDER BY timestamp] is the order of
    the stored texts, not of the instants: the UTC+9 row, 4 hours
    earlier, comes last. *)
Lemma GetEvents_mixed_zones_order :
  forall result, GetEvents mixed_zone_db day_start query_end [] result ->
    result = [scan_row "gh-1" utc_row; scan_row "cal-1" tokyo_row] /\
    t_unix_ns (Timestamp (scan_row "cal-1" tokyo_row))
      < t_unix_ns (Timestamp (scan_row "gh-1" utc_row)).
Proof.
  intros result [Hperm Hsorted].
  assert (Hq : query_rows mixed_zone_db day_start query_end []
               ≡ₚ [scan_row "gh-1" utc_row; scan_row "cal-1" tokyo_row]).
  { assert (Hq' : query_rows mixed_zone_db day_start query_end []
                  = [scan_row "cal-1" tokyo_row; scan_row "gh-1" utc_row]
             \/ query_rows mixed_zone_db day_start query_end []
                  = [scan_row "gh-1" utc_row; scan_row "cal-1" tokyo_row])
      by (vm_compute; auto).
    destruct Hq' as [-> | ->]; [by constructor|done]. }
  rewrite Hq in Hperm. split; [|vm_compute; reflexivity].
  apply Permutation_sym, Permutation_length_2_inv in Hperm as [->| ->]; [done|].
  exfalso. apply Sorted_inv in Hsorted as [_ Hhd]. inversion Hhd as [|? ? Hle]; subst.
  unfold stored_text_le in Hle. vm_compute in Hle. discriminate.
Qed.



End GetEventsProofs.

(* ================================================================= *)
(** ** Time range validation *)

Section ValidateTimeRangeProofs.

Lemma Sub_exceeds (t u : Time) (d : Z) :
  0 <= d < maxDuration ->
  (d <? Sub t u) = (d <? t_unix_ns t - t_unix_ns u).
Proof.
  intros Hd. unfold Sub.
  destruct (Z.ltb_spec maxDuration (t_unix_ns t - t_unix_ns u));
    [|destruct (Z.ltb_spec (t_unix_ns t - t_unix_ns u) minDuration)];
    apply Bool.eq_iff_eq_true; rewrite !Z.ltb_lt;
    unfold maxDuration, minDuration in *; lia.
Qed.

(** C6: [ValidateTimeRange] fails exactly when the start is after the
    end, the end is after now, or the window is longer than 365 days;
    the [TimezoneManager] variant, which reads all three times in its
    location first, gives the same answer. *)
Theorem ValidateTimeRange_iff (loc : Location) (now startTime endTime : Time) :
  (ValidateTimeRange now startTime endTime <> None <->
     t_unix_ns endTime < t_unix_ns startTime \/
     t_unix_ns now < t_unix_ns endTime \/
     t_unix_ns endTime - t_unix_ns startTime > 365 * 24 * Hour) /\
  (ValidateTimeRange now startTime endTime = None <->
     t_unix_ns startTime <= t_unix_ns endTime /\
     t_unix_ns endTime <= t_unix_ns now /\
     t_unix_ns endTime - t_unix_ns startTime <= 365 * 24 * Hour) /\
  tz_ValidateTimeRange loc now startTime endTime = ValidateTimeRange now startTime endTime.
Proof.
  assert (Hd : 0 <= 365 * 24 * Hour < maxDuration)
    by (unfold Hour, Minute, Second, maxDuration; lia).
  split; [|split].
  - unfold ValidateTimeRange, After. rewrite (Sub_exceeds _ _ _ Hd).
    repeat match goal with |- context [?a <? ?b] => destruct (Z.ltb_spec a b) end;
      split; intros; try congruence; lia.
  - unfold ValidateTimeRange, After. rewrite (Sub_exceeds _ _ _ Hd).
    repeat match goal with |- context [?a <? ?b] => destruct (Z.ltb_spec a b) end;
      split; intros; try congruence; lia.
  - reflexivity.
Qed.

End ValidateTimeRangeProofs.

(* ================================================================= *)
(** ** Retry transport *)

Section RetryProofs.

Lemma getRetryAfterDelay_bounds (parseRFC1123 : string -> option Time) (now : Time)
    (header : string) :
  1 * Second <= getRetryAfterDelay parseRFC1123 now header <= 300 * Second.
Proof.
  unfold getRetryAfterDelay.
  destruct (String.eqb header ""); [unfold Second; lia|].
  destruct (Atoi header) as [seconds|]; cbv zeta.
  - repeat match goal with |- context [?a <? ?b] => destruct (Z.ltb_spec a b) end;
      unfold Second in *; lia.
  - destruct (parseRFC1123 header) as [retryTime|]; [|unfold Second; lia].
    repeat match goal with |- context [?a <? ?b] => destruct (Z.ltb_spec a b) end;
      unfold Minute, Second in *; lia.
Qed.

Lemma round_trip_loop_sleeps (maxRetries : Z) (send : nat -> AttemptResult)
    (parseRFC1123 : string -> option Time) (clock : nat -> Time) (attempt fuel : nat) :
  Forall (fun s => match s with
                   | SleepRetryAfter d => 1 * Second <= d <= 300 * Second
                   | SleepBackoff _ => True
                   end)
    (snd (round_trip_loop maxRetries send parseRFC1123 clock attempt fuel)).
Proof.
  revert attempt. induction fuel as [|fuel IH]; intros attempt; simpl; [constructor|].
  destruct (send attempt) as [|status hdr].
  - destruct (Z.of_nat attempt =? maxRetries); simpl; [constructor|].
    specialize (IH (S attempt)).
    destruct (round_trip_loop maxRetries send parseRFC1123 clock (S attempt) fuel).
    simpl in *. constructor; auto.
  - destruct (negb (status =? StatusTooManyRequests)); simpl; [constructor|].
    destruct (Z.of_nat attempt =? maxRetries); simpl; [constructor|].
    specialize (IH (S attempt)).
    destruct (round_trip_loop maxRetries send parseRFC1123 clock (S attempt) fuel).
    simpl in *. constructor; [apply getRetryAfterDelay_bounds|auto].
Qed.

(** C8: whatever the Retry-After header holds (absent, seconds, an
    HTTP-date read by any parser at any clock, or garbage),
    [getRetryAfterDelay] lies in [1s, 300s], and so does every sleep
    [RoundTrip] takes after a 429. *)
Theorem RoundTrip_retry_after_bounded (maxRetries : Z) (send : nat -> AttemptResult)
    (parseRFC1123 : string -> option Time) (clock : nat -> Time) :
  (forall now header,
     1 * Second <= getRetryAfterDelay parseRFC1123 now header <= 300 * Second) /\
  Forall (fun s => match s with
                   | SleepRetryAfter d => 1 * Second <= d <= 300 * Second
                   | SleepBackoff _ => True
                   end)
    (snd (RoundTrip maxRetries send parseRFC1123 clock)).
Proof.
  split.
  - intros now header. apply getRetryAfterDelay_bounds.
  - apply round_trip_loop_sleeps.
Qed.

Example RoundTrip_test_cap :
  RoundTrip 3 send_429_then_ok (fun _ => None) (fun _ => mkTime 0 0)
  = (ReturnResponse 200, [SleepRetryAfter (300 * Second)]).
Proof. vm_compute. reflexivity. Qed.

Example getRetryAfterDelay_test_values :
  getRetryAfterDelay (fun _ => None) (mkTime 0 0) "" = 60 * Second /\
  getRetryAfterDelay (fun _ => None) (mkTime 0 0) "-5" = 1 * Second /\
  getRetryAfterDelay (fun _ => None) (mkTime 0 0) "42" = 42 * Second /\
  getRetryAfterDelay (fun _ => Some (mkTime (30 * Second) 0)) (mkTime 0 0)
    "Wed, 21 Oct 2015 07:28:00 GMT" = 30 * Second /\
  getRetryAfterDelay (fun _ => None) (mkTime 0 0) "soon" = 60 * Second.
Proof. vm_compute. repeat split. Qed.

End RetryProofs.

(* ================================================================= *)
(** ** Token store *)

Section TokenStoreProofs.

Lemma json_string_valid_map (xs : list string) :
  Forall valid_utf8 xs -> map json_string xs = xs.
Proof.
  induction 1 as [|x xs Hx _ IH]; simpl; [reflexivity|].
  unfold valid_utf8 in Hx. by rewrite Hx, IH.
Qed.

Lemma names_roundtrip (l : list StoredToken) :
  map ServiceName (map json_roundtrip l) = map json_string (map ServiceName l).
Proof. induction l as [|t l IH]; simpl; congruence. Qed.

Lemma replace_first_cases (name : string) (tok : StoredToken) (l : list StoredToken) :
  (exists pre t post, l = pre ++ t :: post /\ ServiceName t = name /\
     ~ In name (map ServiceName pre) /\
     replace_first name tok l = (pre ++ tok :: post, true)) \/
  (~ In name (map ServiceName l) /\ replace_first name tok l = (l, false)).
Proof.
  induction l as [|t r IH]; simpl.
  - right. auto.
  - destruct (String.eqb_spec (ServiceName t) name) as [E|E].
    + left. exists [], t, r. simpl. auto.
    + destruct IH as [(pre & t' & post & -> & Ht' & Hpre & ->)|[Hr ->]].
      * left. exists (t :: pre), t', post. simpl. repeat split; auto.
        intros [?|?]; auto.
      * right. split; [|reflexivity]. intros [?|?]; auto.
Qed.

(** A successful [StoreToken] on a readable file writes the old list
    with the first token of the service replaced in place, or with the
    new token appended when there is none. *)
Lemma StoreToken_upsert (enc : string) (now : Time) (s a r : string)
    (e : option Time) (sc : list string) (l : list StoredToken) :
  let tok := mkStoredToken s "" "" "access" None [] now None enc in
  (exists pre t post, l = pre ++ t :: post /\ ServiceName t = s /\
     ~ In s (map ServiceName pre) /\
     StoreToken (Some enc) now WriteOk s a r e sc (FileTokens l)
     = (None, FileTokens (map json_roundtrip (pre ++ tok :: post)))) \/
  (~ In s (map ServiceName l) /\
     StoreToken (Some enc) now WriteOk s a r e sc (FileTokens l)
     = (None, FileTokens (map json_roundtrip (l ++ [tok])))).
Proof.
  cbv zeta. unfold StoreToken. simpl.
  destruct (replace_first_cases s (mkStoredToken s "" "" "access" None [] now None enc) l)
    as [(pre & t & post & Hl & Ht & Hpre & Hrep)|[Hn Hrep]]; rewrite Hrep.
  - left. exists pre, t, post. auto.
  - right. auto.
Qed.

Lemma saveTokens_inv (w : WriteOutcome) (f : StoreFile) (tokens : list StoredToken) :
  token_store_inv f -> NoDup (map ServiceName tokens) ->
  Forall valid_utf8 (map ServiceName tokens) ->
  token_store_inv (snd (saveTokens w f tokens)).
Proof.
  intros Hf Hnd Hv. destruct w; simpl; auto.
  rewrite names_roundtrip, json_string_valid_map by exact Hv. auto.
Qed.

Lemma StoreToken_inv (enc : option string) (now : Time) (w : WriteOutcome)
    (s a r : string) (e : option Time) (sc : list string) (f : StoreFile) :
  valid_utf8 s -> token_store_inv f ->
  token_store_inv (snd (StoreToken enc now w s a r e sc f)).
Proof.
  intros Hs Hf. unfold StoreToken. destruct enc as [enc|]; [|exact Hf].
  set (tok := mkStoredToken s "" "" "access" None [] now None enc).
  assert (Htok : ServiceName tok = s) by reflexivity.
  destruct f as [| |l]; simpl; [| exact I |].
  - apply saveTokens_inv; [exact I| |]; simpl.
    + apply NoDup_singleton.
    + constructor; auto.
  - destruct Hf as [Hnd Hv].
    destruct (replace_first_cases s tok l)
      as [(pre & t & post & -> & Ht & _ & Hrep)|[Hn Hrep]]; rewrite Hrep;
      apply saveTokens_inv; try (split; assumption);
      rewrite ?map_app in *; simpl in *; rewrite ?Htok, ?Ht in *; auto.
    + apply NoDup_app. split; [exact Hnd|]. split; [|apply NoDup_singleton].
      intros x Hx Hx'. apply list_elem_of_singleton in Hx'. subst x.
      apply Hn. by apply list_elem_of_In.
    + apply Forall_app. split; [exact Hv|]. constructor; auto.
Qed.

Lemma set_first_refresh_names (s : string) (now : Time) (l : list StoredToken) :
  map ServiceName (set_first_refresh s now l) = map ServiceName l.
Proof.
  induction l as [|t l IH]; simpl; [reflexivity|].
  destruct (String.eqb (ServiceName t) s); simpl; congruence.
Qed.

Lemma UpdateRefreshTime_inv (now : Time) (w : WriteOutcome) (s : string) (f : StoreFile) :
  token_store_inv f -> token_store_inv (snd (UpdateRefreshTime now w s f)).
Proof.
  intros Hf. destruct f as [| |l]; simpl; auto.
  destruct Hf as [Hnd Hv].
  apply saveTokens_inv; [split; assumption| |]; rewrite set_first_refresh_names; auto.
Qed.

Lemma filter_names_sub (q : StoredToken -> bool) (l : list StoredToken) (x : string) :
  In x (map ServiceName (List.filter q l)) -> In x (map ServiceName l).
Proof.
  induction l as [|t l IH]; simpl; [auto|].
  destruct (q t); simpl; intuition.
Qed.

Lemma filter_names_inv (q : StoredToken -> bool) (l : list StoredToken) :
  NoDup (map ServiceName l) -> Forall valid_utf8 (map ServiceName l) ->
  NoDup (map ServiceName (List.filter q l)) /\
  Forall valid_utf8 (map ServiceName (List.filter q l)).
Proof.
  induction l as [|t l IH]; simpl; intros Hnd Hv; [split; constructor|].
  inversion Hnd as [|x k Hx Hnd' Heq]; subst.
  inversion Hv as [|x k Hvt Hv' Heq]; subst.
  destruct (IH Hnd' Hv') as [H1 H2].
  destruct (q t); simpl; [|split; assumption].
  split; constructor; auto.
  intros Hin. apply Hx. apply list_elem_of_In. eapply filter_names_sub.
  apply list_elem_of_In. exact Hin.
Qed.

Lemma DeleteToken_inv (w : WriteOutcome) (s : string) (f : StoreFile) :
  token_store_inv f -> token_store_inv (snd (DeleteToken w s f)).
Proof.
  intros Hf. destruct f as [| |l]; simpl; auto.
  destruct Hf as [Hnd Hv].
  destruct (filter_names_inv (fun t => negb (String.eqb (ServiceName t) s)) l Hnd Hv).
  apply saveTokens_inv; auto. split; assumption.
Qed.

Lemma run_token_op_inv (f : StoreFile) (op : TokenOp) :
  valid_utf8 (op_service op) -> token_store_inv f ->
  token_store_inv (run_token_op f op).
Proof.
  destruct op; simpl; intros Hs Hf.
  - by apply StoreToken_inv.
  - by apply UpdateRefreshTime_inv.
  - by apply DeleteToken_inv.
Qed.

(** C9: from a store file with at most one token per service name, any
    sequence of [StoreToken], [UpdateRefreshTime] and [DeleteToken]
    calls, successful or failing, whose service names are valid UTF-8
    leaves at most one token per service name. *)
Theorem TokenStore_one_token_per_service (f : StoreFile) (ops : list TokenOp)
    (Hinv : token_store_inv f)
    (Hnames : Forall (fun op => valid_utf8 (op_service op)) ops) :
  token_store_inv (run_token_ops f ops).
Proof.
  unfold run_token_ops. revert f Hinv.
  induction Hnames as [|op ops Hop _ IH]; simpl; intros f Hf; [exact Hf|].
  apply IH. by apply run_token_op_inv.
Qed.

(** C9, the other way: [StoreToken] compares the caller's name with the
    names read back from JSON, where ["\xff"] has become U+FFFD. Storing
    a token for ["\xff"] twice, from no file, leaves two tokens of the
    same name. *)
Lemma TokenStore_invalid_utf8_duplicates :
  token_store_inv FileMissing /\
  ~ token_store_inv (run_token_ops FileMissing [store_xff; store_xff]).
Proof.
  split; [exact I|].
  assert (Hn : match run_token_ops FileMissing [store_xff; store_xff] with
               | FileTokens l => map ServiceName l
               | _ => []
               end = [json_string name_xff; json_string name_xff])
    by (vm_compute; reflexivity).
  destruct (run_token_ops FileMissing [store_xff; store_xff]) as [| |l];
    [discriminate..|].
  simpl. rewrite Hn. intros [Hnd _].
  apply NoDup_cons in Hnd as [Hx _]. apply Hx. by apply list_elem_of_singleton.
Qed.

Lemma TokenStore_one_token_per_service_witness :
  token_store_inv FileMissing /\
  Forall (fun op => valid_utf8 (op_service op)) token_ops_sample /\
  token_store_inv (run_token_ops FileMissing token_ops_sample).
Proof.
  assert (H1 : token_store_inv FileMissing) by (simpl; exact I).
  assert (H2 : Forall (fun op => valid_utf8 (op_service op)) token_ops_sample)
    by (repeat (constructor; [vm_compute; reflexivity|]); constructor).
  split; [exact H1|]. split; [exact H2|].
  exact (TokenStore_one_token_per_service FileMissing token_ops_sample H1 H2).
Defined.

Example TokenStore_test_sample :
  map ServiceName (match run_token_ops FileMissing token_ops_sample with
                   | FileTokens l => l
                   | _ => []
                   end) = ["github"].
Proof. vm_compute. reflexivity. Qed.

End TokenStoreProofs.

(* ================================================================= *)
(** ** Service initialisation, status, collect-and-store *)

Section InitProofs.

Lemma prioritize_loop_eq (names p o : list string) :
  prioritize_loop names p o
  = (p ++ List.filter is_calendar names) ++ (o ++ List.filter (fun s => negb (is_calendar s)) names).
Proof.
  revert p o. induction names as [|s names IH]; intros p o; simpl.
  - by rewrite !app_nil_r.
  - unfold is_calendar in *. destruct (String.eqb s "google_calendar"); simpl;
      rewrite IH; by rewrite <- !app_assoc.
Qed.

Lemma filter_split_perm {A} (p : A -> bool) (l : list A) :
  List.filter p l ++ List.filter (fun x => negb (p x)) l ≡ₚ l.
Proof.
  induction l as [|x l IH]; simpl; [done|].
  destruct (p x); simpl.
  - by rewrite IH.
  - rewrite <- Permutation_middle. by rewrite IH.
Qed.

Lemma filter_calendar_repeat (names : list string) :
  List.filter is_calendar names
  = repeat "google_calendar" (length (List.filter is_calendar names)).
Proof.
  induction names as [|s names IH]; simpl; [done|].
  unfold is_calendar in *.
  destruct (String.eqb_spec s "google_calendar") as [->|]; simpl.
  - by rewrite <- IH.
  - exact IH.
Qed.

(** [prioritizeCalendarService] reorders, never adds or drops a name:
    every ["google_calendar"] comes first, then the other names in
    their original order. *)
Theorem prioritizeCalendarService_spec (serviceNames : list string) :
  prioritizeCalendarService serviceNames ≡ₚ serviceNames /\
  prioritizeCalendarService serviceNames
  = repeat "google_calendar" (length (List.filter is_calendar serviceNames)) ++
    List.filter (fun s => negb (String.eqb s "google_calendar")) serviceNames.
Proof.
  unfold prioritizeCalendarService. rewrite prioritize_loop_eq. simpl.
  split.
  - apply filter_split_perm.
  - by rewrite <- filter_calendar_repeat.
Qed.

(** One iteration of the loop: a service that is not enabled and
    authenticated (an unknown name never is) stops it with an error;
    otherwise its constructor runs. *)
Lemma init_for_loop_step (cfg : Config) (newClient : ClientFactory) (k : nat)
    (s : string) (rest : list string) (m : ServiceMap) :
  (service_ready cfg s = false ->
     exists err, init_for_loop cfg newClient k (s :: rest) m = (Some err, m)) /\
  (service_ready cfg s = true ->
     init_for_loop cfg newClient k (s :: rest) m
     = match newClient k s with
       | None => (Some (ErrClientInit s), m)
       | Some c => init_for_loop cfg newClient (S k) rest (<[s := c]> m)
       end).
Proof.
  unfold service_ready, isServiceEnabled, isServiceAuthenticated. simpl.
  destruct (String.eqb_spec s "slack") as [->|Hs1];
    [|destruct (String.eqb_spec s "github") as [->|Hs2];
      [|destruct (String.eqb_spec s "google_calendar") as [->|Hs3]]]; simpl.
  - destruct (sc_Enabled (cfg_Slack cfg)); simpl; [|split; [eauto|discriminate]].
    destruct (String.eqb (sc_AccessToken (cfg_Slack cfg)) ""); simpl;
      [split; [eauto|discriminate]|split; [discriminate|done]].
  - destruct (sc_Enabled (cfg_GitHub cfg)); simpl; [|split; [eauto|discriminate]].
    destruct (String.eqb (sc_AccessToken (cfg_GitHub cfg)) ""); simpl;
      [split; [eauto|discriminate]|split; [discriminate|done]].
  - rewrite orb_true_r, andb_true_r.
    destruct (sc_Enabled (cfg_GoogleCal cfg)); simpl;
      [split; [discriminate|done]|split; [eauto|discriminate]].
  - split; [eauto|discriminate].
Qed.

Lemma init_for_loop_spec (cfg : Config) (newClient : ClientFactory) (k : nat)
    (names : list string) (m : ServiceMap) :
  let '(r, m') := init_for_loop cfg newClient k names m in
  (forall s, is_Some (m' !! s) ->
     is_Some (m !! s) \/ (s ∈ names /\ service_ready cfg s = true)) /\
  (forall s, is_Some (m !! s) -> is_Some (m' !! s)) /\
  (r = None -> forall s, s ∈ names -> is_Some (m' !! s) /\ service_ready cfg s = true).
Proof.
  revert k m. induction names as [|s names IH]; intros k m.
  { simpl. split; [auto|]. split; [auto|]. intros _ s Hs. set_solver. }
  destruct (init_for_loop_step cfg newClient k s names m) as [Hno Hyes].
  destruct (service_ready cfg s) eqn:Hready.
  - rewrite (Hyes eq_refl). destruct (newClient k s) as [c|].
    + specialize (IH (S k) (<[s := c]> m)).
      destruct (init_for_loop cfg newClient (S k) names (<[s := c]> m)) as [r m'].
      destruct IH as (H1 & H2 & H3). split; [|split].
      * intros x Hx. destruct (H1 x Hx) as [Hin|[Hn Hr]].
        -- rewrite lookup_insert_is_Some' in Hin. destruct Hin as [<-|Hin]; [|by left].
           right. split; [set_solver|done].
        -- right. split; [set_solver|done].
      * intros x Hx. apply H2. rewrite lookup_insert_is_Some'. by right.
      * intros Hr x Hx. apply elem_of_cons in Hx as [->|Hx]; [|by apply H3].
        split; [|done]. apply H2. rewrite lookup_insert_is_Some'. by left.
    + split; [auto|]. split; [auto|]. discriminate.
  - destruct (Hno eq_refl) as [err ->]. split; [auto|]. split; [auto|]. discriminate.
Qed.

Lemma prioritize_elem (names : list string) (s : string) :
  s ∈ prioritizeCalendarService names <-> s ∈ names.
Proof.
  unfold prioritizeCalendarService. rewrite prioritize_loop_eq. simpl.
  by rewrite (filter_split_perm is_calendar names).
Qed.

(** [InitializeServicesFor]: an empty list of names is refused with
    [ErrNoTargets]; the "no service configured" error is never reached;
    whatever is initialised, even when the call fails half-way, is a
    named service that is enabled and authenticated in the config; and
    on success every named service is initialised, enabled and
    authenticated (so one disabled or token-less name makes the call
    fail). *)
Theorem InitializeServicesFor_spec (cfg : Config) (newClient : ClientFactory)
    (serviceNames : list string) :
  let '(r, services) := InitializeServicesFor cfg newClient serviceNames in
  (serviceNames = [] -> r = Some ErrNoTargets) /\
  r <> Some ErrNoServicesConfigured /\
  (forall s, is_Some (services !! s) ->
     s ∈ serviceNames /\ isServiceEnabled cfg s = true /\ isServiceAuthenticated cfg s = true) /\
  (r = None -> forall s, s ∈ serviceNames ->
     is_Some (services !! s) /\ isServiceEnabled cfg s = true /\
     isServiceAuthenticated cfg s = true).
Proof.
  unfold InitializeServicesFor. destruct serviceNames as [|n0 rest] eqn:Hn.
  { split; [done|]. split; [discriminate|]. split.
    - intros s [? Hs]. by rewrite lookup_empty in Hs.
    - discriminate. }
  rewrite <- Hn.
  pose proof (init_for_loop_spec cfg newClient 0 (prioritizeCalendarService serviceNames) ∅)
    as Hspec.
  destruct (init_for_loop cfg newClient 0 (prioritizeCalendarService serviceNames) ∅)
    as [r m] eqn:Hloop.
  destruct Hspec as (H1 & _ & H3).
  assert (Hkeys : forall s, is_Some (m !! s) ->
     s ∈ serviceNames /\ isServiceEnabled cfg s = true /\ isServiceAuthenticated cfg s = true).
  { intros s Hs. destruct (H1 s Hs) as [[? He]|[Hin Hr]].
    - by rewrite lookup_empty in He.
    - apply (proj1 (prioritize_elem _ _)) in Hin. unfold service_ready in Hr.
      apply andb_prop in Hr as [? ?]. repeat split; assumption. }
  assert (Hall : r = None -> forall s, s ∈ serviceNames ->
     is_Some (m !! s) /\ isServiceEnabled cfg s = true /\ isServiceAuthenticated cfg s = true).
  { intros Hr s Hs. apply (proj2 (prioritize_elem _ _)) in Hs.
    destruct (H3 Hr s Hs) as [Hsome Hready]. unfold service_ready in Hready.
    apply andb_prop in Hready as [? ?]. repeat split; assumption. }
  destruct r as [err|].
  - split; [by rewrite Hn|]. split; [|split; [done|discriminate]].
    intros Herr. injection Herr as ->.
    (* the loop itself never produces this error *)
    revert Hloop. generalize (prioritizeCalendarService serviceNames), 0%nat, (∅ : ServiceMap).
    intros l. induction l as [|s l IH]; intros k m0 Hl; simpl in Hl; [discriminate|].
    repeat (case_match; try discriminate); eauto.
  - destruct (decide (m = ∅)) as [Hm|Hm].
    + exfalso. subst m.
      assert (Hin : n0 ∈ serviceNames) by (rewrite Hn; left).
      destruct (Hall eq_refl n0 Hin) as [[? He] _]. by rewrite lookup_empty in He.
    + split; [by rewrite Hn|]. split; [discriminate|]. split; [done|].
      intros _. by apply Hall.
Qed.

Lemma init_if_keys (newClient : ClientFactory) (cond : bool) (s : string)
    (k : nat) (m : ServiceMap) (x : string) :
  is_Some ((init_if newClient cond s (k, m)).2 !! x) <->
  is_Some (m !! x) \/ (x = s /\ cond = true /\ is_Some (newClient k s)).
Proof.
  unfold init_if. destruct cond; simpl.
  - destruct (newClient k s) as [c|] eqn:Hc.
    + rewrite lookup_insert_is_Some'. split.
      * intros [->|H]; [right; eauto|by left].
      * intros [H|(-> & _ & _)]; [by right|by left].
    + split; [by left|]. intros [H|(_ & _ & [? H])]; [done|discriminate].
  - split; [by left|]. intros [H|(_ & H & _)]; [done|discriminate].
Qed.

Lemma init_if_fst (newClient : ClientFactory) (cond : bool) (s : string) (acc : nat * ServiceMap) :
  (init_if newClient cond s acc).1 = if cond then S acc.1 else acc.1.
Proof. destruct acc as [k m]. unfold init_if. by destruct cond. Qed.

Lemma init_if_eta (newClient : ClientFactory) (cond : bool) (s : string) (acc : nat * ServiceMap) :
  init_if newClient cond s acc = init_if newClient cond s (acc.1, acc.2).
Proof. by destruct acc. Qed.

Lemma InitializeServices_keys (cfg : Config) (newClient : ClientFactory) (x : string) :
  let condS := sc_Enabled (cfg_Slack cfg) && negb (String.eqb (sc_AccessToken (cfg_Slack cfg)) "") in
  let condG := sc_Enabled (cfg_GitHub cfg) && negb (String.eqb (sc_AccessToken (cfg_GitHub cfg)) "") in
  is_Some ((InitializeServices cfg newClient).2 !! x) <->
  (x = "slack" /\ condS = true /\ is_Some (newClient 0%nat "slack")) \/
  (x = "github" /\ condG = true /\
     is_Some (newClient (if condS then 1%nat else 0%nat) "github")) \/
  (x = "google_calendar" /\ sc_Enabled (cfg_GoogleCal cfg) = true /\
     is_Some (newClient (if condG then S (if condS then 1%nat else 0%nat)
                         else (if condS then 1%nat else 0%nat)) "google_calendar")).
Proof.
  intros condS condG.
  assert (Hm : forall m : ServiceMap,
    (if decide (m = ∅) then (Some ErrNoServicesConfigured, m) else (None, m)).2 = m)
    by (intros m; by destruct (decide (m = ∅))).
  unfold InitializeServices. rewrite Hm.
  rewrite init_if_eta, init_if_keys, !init_if_fst.
  rewrite (init_if_eta _ _ "github"), init_if_keys, init_if_fst.
  rewrite (init_if_eta _ _ "slack"), init_if_keys.
  simpl. rewrite lookup_empty. fold condS condG.
  split.
  - intros [[[[? H]|H]|H]|H]; [discriminate|tauto..].
  - tauto.
Qed.

Lemma InitializeServices_result (cfg : Config) (newClient : ClientFactory) :
  (InitializeServices cfg newClient).1 =
  if decide ((InitializeServices cfg newClient).2 = ∅) then Some ErrNoServicesConfigured else None.
Proof.
  unfold InitializeServices. cbv zeta.
  remember (init_if newClient _ "google_calendar" _).2 as m eqn:Hm. clear Hm.
  destruct (decide (m = ∅)); simpl; case_decide; done.
Qed.

(** [InitializeServices]: it fails, with [ErrNoServicesConfigured],
    exactly when no client got built; every client it builds is for a
    service that is enabled and authenticated in the config; and when
    no constructor fails, every enabled and authenticated service gets
    its client (a constructor error only skips that service). *)
Theorem InitializeServices_spec (cfg : Config) (newClient : ClientFactory) :
  let '(r, services) := InitializeServices cfg newClient in
  (r = None <-> services <> ∅) /\
  (r <> None -> r = Some ErrNoServicesConfigured) /\
  (forall s, is_Some (services !! s) ->
     isServiceEnabled cfg s = true /\ isServiceAuthenticated cfg s = true) /\
  ((forall k s, is_Some (newClient k s)) ->
   forall s, isServiceEnabled cfg s = true -> isServiceAuthenticated cfg s = true ->
     is_Some (services !! s)).
Proof.
  pose proof (InitializeServices_result cfg newClient) as Hr.
  pose proof (InitializeServices_keys cfg newClient) as Hk. cbv zeta in Hk.
  destruct (InitializeServices cfg newClient) as [r services]. simpl in Hr, Hk.
  split; [|split; [|split]].
  - rewrite Hr. destruct (decide (services = ∅)); split; done.
  - rewrite Hr. destruct (decide (services = ∅)); done.
  - intros s Hs. apply (proj1 (Hk s)) in Hs.
    destruct Hs as [(-> & Hc & _)|[(-> & Hc & _)|(-> & Hc & _)]];
      unfold isServiceEnabled, isServiceAuthenticated; simpl;
      rewrite ?orb_true_r; [apply andb_prop in Hc..|]; tauto.
  - intros Hall s He Ha. apply (proj2 (Hk s)).
    unfold isServiceEnabled, isServiceAuthenticated in He, Ha.
    destruct (String.eqb_spec s "slack") as [Hs1|Hs1].
    { subst s. left. simpl in He, Ha. rewrite He, Ha. auto. }
    destruct (String.eqb_spec s "github") as [Hs2|Hs2].
    { subst s. right. left. simpl in He, Ha. rewrite He, Ha. auto. }
    destruct (String.eqb_spec s "google_calendar") as [Hs3|Hs3].
    { subst s. right. right. simpl in He. auto. }
    discriminate.
Qed.

Lemma InitializeServicesFor_ready (cfg : Config) (newClient : ClientFactory)
    (serviceNames : list string) (s : string) :
  is_Some ((InitializeServicesFor cfg newClient serviceNames).2 !! s) ->
  service_ready cfg s = true.
Proof.
  unfold InitializeServicesFor. destruct serviceNames as [|n0 rest].
  { intros [? He]. simpl in He. by rewrite lookup_empty in He. }
  pose proof (init_for_loop_spec cfg newClient 0 (prioritizeCalendarService (n0 :: rest)) ∅)
    as Hspec.
  destruct (init_for_loop cfg newClient 0 (prioritizeCalendarService (n0 :: rest)) ∅)
    as [r m].
  destruct Hspec as (H1 & _ & _).
  assert (Hm : (match r with
                | Some err => (Some err, m)
                | None => if decide (m = ∅) then (Some ErrNoServicesConfigured, m) else (None, m)
                end).2 = m) by (destruct r; [done|]; by destruct (decide (m = ∅))).
  rewrite Hm. intros Hs. destruct (H1 s Hs) as [[? He]|[_ Hr]]; [|done].
  by rewrite lookup_empty in He.
Qed.

Lemma InitializeServices_ready (cfg : Config) (newClient : ClientFactory) (s : string) :
  is_Some ((InitializeServices cfg newClient).2 !! s) -> service_ready cfg s = true.
Proof.
  intros Hs. apply (proj1 (InitializeServices_keys cfg newClient s)) in Hs.
  unfold service_ready, isServiceEnabled, isServiceAuthenticated.
  destruct Hs as [(-> & Hc & _)|[(-> & Hc & _)|(-> & Hc & _)]]; simpl;
    rewrite ?orb_true_r, ?andb_true_r; done.
Qed.

Lemma GetServiceStatus_lookup (cfg : Config) (services : ServiceMap) (s : string) :
  GetServiceStatus cfg services !! s
  = if bool_decide (s ∈ ["slack"; "github"; "google_calendar"])
    then Some (mkServiceStatus s (isServiceEnabled cfg s) (isServiceAuthenticated cfg s)
                 (isServiceInitialized services s))
    else None.
Proof.
  unfold GetServiceStatus. simpl.
  destruct (String.eqb_spec s "google_calendar") as [->|H3].
  { rewrite lookup_insert_eq. by rewrite bool_decide_true by set_solver. }
  rewrite lookup_insert_ne by congruence.
  destruct (String.eqb_spec s "github") as [->|H2].
  { rewrite lookup_insert_eq. by rewrite bool_decide_true by set_solver. }
  rewrite lookup_insert_ne by congruence.
  destruct (String.eqb_spec s "slack") as [->|H1].
  { rewrite lookup_insert_eq. by rewrite bool_decide_true by set_solver. }
  rewrite lookup_insert_ne by congruence.
  rewrite lookup_empty, bool_decide_false; [done|].
  rewrite !elem_of_cons, elem_of_nil. intuition congruence.
Qed.

(** [GetServiceStatus] after either initialisation: it reports exactly
    the three known services, each under its own name, and a service
    reported as initialised is always reported as enabled and
    authenticated too, even when the initialisation failed. *)
Theorem GetServiceStatus_after_init (cfg : Config) (newClient : ClientFactory)
    (serviceNames : list string) :
  let consistent (services : ServiceMap) :=
    (forall s, is_Some (GetServiceStatus cfg services !! s) <->
               s ∈ ["slack"; "github"; "google_calendar"]) /\
    (forall s st, GetServiceStatus cfg services !! s = Some st ->
       st_Name st = s /\
       (st_Initialized st = true -> st_Enabled st = true /\ st_Authenticated st = true)) in
  consistent (InitializeServices cfg newClient).2 /\
  consistent (InitializeServicesFor cfg newClient serviceNames).2.
Proof.
  assert (Hgen : forall services : ServiceMap,
    (forall s, is_Some (services !! s) -> service_ready cfg s = true) ->
    (forall s, is_Some (GetServiceStatus cfg services !! s) <->
               s ∈ ["slack"; "github"; "google_calendar"]) /\
    (forall s st, GetServiceStatus cfg services !! s = Some st ->
       st_Name st = s /\
       (st_Initialized st = true -> st_Enabled st = true /\ st_Authenticated st = true))).
  { intros services Hready. split.
    - intros s. rewrite GetServiceStatus_lookup.
      case_bool_decide as Hin; split; try done.
    - intros s st. rewrite GetServiceStatus_lookup.
      case_bool_decide; [|discriminate]. intros Hst. injection Hst as <-. simpl.
      split; [done|]. unfold isServiceInitialized. intros Hi.
      apply bool_decide_eq_true in Hi. apply Hready in Hi.
      apply andb_prop in Hi. done. }
  cbv zeta. split; apply Hgen.
  - apply InitializeServices_ready.
  - apply InitializeServicesFor_ready.
Qed.

End InitProofs.

(* ----------------------------------------------------------------- *)
(** ** Collect and store *)

Section CollectAndStoreProofs.

Lemma CollectEvents_ok_perm (sched : Schedule) (services : ServiceMap)
    (startTime endTime : Time) (names : list string) (r : list Event) :
  valid_schedule sched ->
  (CollectEvents sched services startTime endTime names).1 = CollectOk r ->
  r ≡ₚ successful_events startTime endTime (servicesToCollect services names).1.
Proof.
  intros Hs. rewrite CollectEvents_unfold. cbv zeta.
  set (m := (servicesToCollect services names).1).
  destruct (decide (m = ∅)); simpl; [discriminate|].
  intros Hr. injection Hr as <-.
  destruct (sortEventsByTimestamp_sorted_perm
    (concat (map (fun nc => fetched startTime endTime nc.2) (sched m))))
    as (Hperm & _).
  rewrite Hperm. unfold successful_events. apply concat_map_perm, Hs.
Qed.

Lemma CollectEvents_err_empty (sched : Schedule) (services : ServiceMap)
    (startTime endTime : Time) (names : list string) :
  (servicesToCollect services names).1 = ∅ <->
  exists err, (CollectEvents sched services startTime endTime names).1 = CollectErr err.
Proof.
  rewrite CollectEvents_unfold. cbv zeta.
  destruct (decide ((servicesToCollect services names).1 = ∅)); simpl.
  - split; eauto.
  - split; [done|]. intros [? ?]; discriminate.
Qed.

Lemma list_to_set_ID_perm (l1 l2 : list Event) :
  l1 ≡ₚ l2 -> (list_to_set (map ID l1) : gset string) = list_to_set (map ID l2).
Proof.
  intros Hp. apply set_eq. intros x. rewrite !elem_of_list_to_set.
  by rewrite (Permutation_map ID Hp).
Qed.

(** [CollectAndStore]: with no service to collect from it fails before
    touching the database; when every candidate returns nothing (or
    fails) it runs no SQL statement at all; any error leaves the
    database as it was; and on success the event table holds exactly
    the IDs it held before plus those of the events that the services
    returned, every statement run having succeeded. *)
Theorem CollectAndStore_spec (sched : Schedule) (ok : nat -> bool) (now : Z)
    (services : ServiceMap) (db : DB) (startTime endTime : Time) (serviceNames : list string) :
  valid_schedule sched ->
  let '(r, db', log) :=
    CollectAndStore sched ok now services db startTime endTime serviceNames in
  ((servicesToCollect services serviceNames).1 = ∅ ->
     r = Some (ErrCollectFailed ErrNoServicesAvailable) /\ db' = db /\ log = []) /\
  (successful_events startTime endTime (servicesToCollect services serviceNames).1 = [] ->
     db' = db /\ log = []) /\
  (r <> None -> db' = db) /\
  (r = None ->
     dom (events_table db') = dom (events_table db) ∪
       list_to_set (map ID (successful_events startTime endTime
                              (servicesToCollect services serviceNames).1)) /\
     forall p, p ∈ log -> p.2 = true).
Proof.
  intros Hs.
  pose proof (CollectEvents_ok_perm sched services startTime endTime serviceNames) as Hp.
  pose proof (CollectEvents_err_empty sched services startTime endTime serviceNames) as He.
  set (succ := successful_events startTime endTime (servicesToCollect services serviceNames).1)
    in *.
  unfold CollectAndStore.
  destruct (CollectEvents sched services startTime endTime serviceNames).1
    as [events|[]] eqn:Hc.
  2: { split; [done|]. split; [done|]. split; [done|]. discriminate. }
  specialize (Hp events Hs eq_refl).
  assert (Hne : (servicesToCollect services serviceNames).1 <> ∅).
  { intros Hm. apply He in Hm as [? ?]. discriminate. }
  destruct events as [|e es].
  { split; [done|]. split; [done|]. split; [done|]. intros _.
    apply Permutation_nil in Hp. rewrite Hp. simpl. split; [set_solver|].
    intros ? Hin. by apply elem_of_nil in Hin. }
  pose proof (InsertEvents_error_db ok now db (e :: es)) as Herr.
  pose proof (InsertEvents_trace ok now db (e :: es)) as Htr.
  pose proof (InsertEvents_success ok now db) as Hsucc.
  destruct (InsertEvents ok now db (e :: es)) as [[r db'] log] eqn:Hi. simpl in Herr, Htr.
  assert (Hsn : succ <> []).
  { intros Hnil. rewrite Hnil in Hp. symmetry in Hp. by apply Permutation_nil_cons in Hp. }
  destruct r as [err|]; simpl.
  - split; [done|]. split; [done|].
    split; [intros _; by apply Herr|]. discriminate.
  - split; [done|]. split; [done|].
    split; [done|]. intros _. split; [|by apply Htr].
    rewrite (Hsucc db' (e :: es) log Hi), upsert_all_dom.
    by rewrite (list_to_set_ID_perm _ _ Hp).
Qed.

Lemma CollectAndStore_spec_witness :
  valid_schedule map_to_list /\
  let '(r, db', log) :=
    CollectAndStore map_to_list (fun _ => true) 0 ok_and_failed empty_db
      t_base (t_plus 1440) [] in
  ((servicesToCollect ok_and_failed []).1 = ∅ ->
     r = Some (ErrCollectFailed ErrNoServicesAvailable) /\ db' = empty_db /\ log = []) /\
  (successful_events t_base (t_plus 1440) (servicesToCollect ok_and_failed []).1 = [] ->
     db' = empty_db /\ log = []) /\
  (r <> None -> db' = empty_db) /\
  (r = None ->
     dom (events_table db') = dom (events_table empty_db) ∪
       list_to_set (map ID (successful_events t_base (t_plus 1440)
                              (servicesToCollect ok_and_failed []).1)) /\
     forall p, p ∈ log -> p.2 = true).
Proof.
  assert (Hs : valid_schedule map_to_list) by (intros m; reflexivity).
  split; [exact Hs|].
  exact (CollectAndStore_spec map_to_list (fun _ => true) 0 ok_and_failed empty_db
           t_base (t_plus 1440) [] Hs).
Defined.

End CollectAndStoreProofs.

(* ----------------------------------------------------------------- *)
(** ** Retry loops *)

Section RetryLoops.

Lemma round_trip_loop_attempts (maxRetries : Z) (send : nat -> AttemptResult)
    (parseRFC1123 : string -> option Time) (clock : nat -> Time) (fuel a : nat) :
  (0 < fuel)%nat -> Z.of_nat a + Z.of_nat fuel = maxRetries + 1 ->
  let '(out, sleeps) := round_trip_loop maxRetries send parseRFC1123 clock a fuel in
  (length sleeps < fuel)%nat /\
  (forall k, (k < length sleeps)%nat ->
     (send (a + k)%nat = NetworkError /\
      sleeps !! k = Some (SleepBackoff ((Z.of_nat (a + k) + 1) * Second))) \/
     (exists h, send (a + k)%nat = Response StatusTooManyRequests h /\
      sleeps !! k = Some (SleepRetryAfter
                            (getRetryAfterDelay parseRFC1123 (clock (a + k)%nat) h)))) /\
  match out with
  | ReturnResponse st =>
      exists h, send (a + length sleeps)%nat = Response st h /\
                (st <> StatusTooManyRequests \/ Z.of_nat (a + length sleeps) = maxRetries)
  | ReturnError =>
      send (a + length sleeps)%nat = NetworkError /\
      Z.of_nat (a + length sleeps) = maxRetries
  | ReturnNothing => False
  end.
Proof.
  revert a. induction fuel as [|fuel IH]; intros a Hf Hsum; [lia|].
  simpl. destruct (send a) as [|status hdr] eqn:Hsend.
  - destruct (Z.eqb_spec (Z.of_nat a) maxRetries) as [Ha|Ha].
    { simpl. rewrite Nat.add_0_r. split; [lia|]. split; [intros; lia|]. done. }
    specialize (IH (S a) ltac:(lia) ltac:(lia)).
    destruct (round_trip_loop maxRetries send parseRFC1123 clock (S a) fuel)
      as [out sleeps]. destruct IH as (Hlen & Hk & Hout). simpl.
    split; [lia|]. split.
    + intros [|k] Hk'; simpl.
      * left. rewrite Nat.add_0_r. auto.
      * replace (a + S k)%nat with (S a + k)%nat by lia. apply Hk. lia.
    + replace (a + S (length sleeps))%nat with (S a + length sleeps)%nat by lia. done.
  - destruct (Z.eqb_spec status StatusTooManyRequests) as [Hst|Hst]; simpl.
    2: { rewrite Nat.add_0_r. split; [lia|]. split; [intros; lia|]. eauto. }
    destruct (Z.eqb_spec (Z.of_nat a) maxRetries) as [Ha|Ha].
    { simpl. rewrite Nat.add_0_r. split; [lia|]. split; [intros; lia|]. eauto. }
    specialize (IH (S a) ltac:(lia) ltac:(lia)).
    destruct (round_trip_loop maxRetries send parseRFC1123 clock (S a) fuel)
      as [out sleeps]. destruct IH as (Hlen & Hk & Hout). simpl.
    split; [lia|]. split.
    + intros [|k] Hk'; simpl.
      * right. rewrite Nat.add_0_r. subst status. eauto.
      * replace (a + S k)%nat with (S a + k)%nat by lia. apply Hk. lia.
    + replace (a + S (length sleeps))%nat with (S a + length sleeps)%nat by lia. done.
Qed.

(** [RetryTransport.RoundTrip] with [MaxRetries >= 0]: it makes at most
    [MaxRetries + 1] attempts, sleeping once between two consecutive
    ones; every attempt but the last got a network error (then it sleeps
    [attempt+1] seconds) or a 429 (then it sleeps the Retry-After
    delay); the last attempt decides the result: its non-429 response,
    or, on the final allowed attempt, its 429 response or a network
    error. It never ends with both a nil response and a nil error. *)
Theorem RoundTrip_attempts (maxRetries : Z) (send : nat -> AttemptResult)
    (parseRFC1123 : string -> option Time) (clock : nat -> Time) :
  0 <= maxRetries ->
  let '(out, sleeps) := RoundTrip maxRetries send parseRFC1123 clock in
  (length sleeps <= Z.to_nat maxRetries)%nat /\
  (forall k, (k < length sleeps)%nat ->
     (send k = NetworkError /\
      sleeps !! k = Some (SleepBackoff ((Z.of_nat k + 1) * Second))) \/
     (exists h, send k = Response StatusTooManyRequests h /\
      sleeps !! k = Some (SleepRetryAfter (getRetryAfterDelay parseRFC1123 (clock k) h)))) /\
  match out with
  | ReturnResponse st =>
      exists h, send (length sleeps) = Response st h /\
                (st <> StatusTooManyRequests \/ Z.of_nat (length sleeps) = maxRetries)
  | ReturnError => send (length sleeps) = NetworkError /\ Z.of_nat (length sleeps) = maxRetries
  | ReturnNothing => False
  end.
Proof.
  intros Hm. unfold RoundTrip.
  pose proof (round_trip_loop_attempts maxRetries send parseRFC1123 clock
                (Z.to_nat (maxRetries + 1)) 0 ltac:(lia) ltac:(lia)) as H.
  destruct (round_trip_loop maxRetries send parseRFC1123 clock 0 (Z.to_nat (maxRetries + 1)))
    as [out sleeps].
  destruct H as (Hlen & Hk & Hout). split; [lia|]. split; [exact Hk|]. exact Hout.
Qed.

Lemma RoundTrip_attempts_witness :
  0 <= 2 /\
  let '(out, sleeps) := RoundTrip 2 send_429_then_ok (fun _ => None) (fun _ => t_base) in
  (length sleeps <= Z.to_nat 2)%nat /\
  (forall k, (k < length sleeps)%nat ->
     (send_429_then_ok k = NetworkError /\
      sleeps !! k = Some (SleepBackoff ((Z.of_nat k + 1) * Second))) \/
     (exists h, send_429_then_ok k = Response StatusTooManyRequests h /\
      sleeps !! k = Some (SleepRetryAfter
                            (getRetryAfterDelay (fun _ => None) ((fun _ => t_base) k) h)))) /\
  match out with
  | ReturnResponse st =>
      exists h, send_429_then_ok (length sleeps) = Response st h /\
                (st <> StatusTooManyRequests \/ Z.of_nat (length sleeps) = 2)
  | ReturnError => send_429_then_ok (length sleeps) = NetworkError /\ Z.of_nat (length sleeps) = 2
  | ReturnNothing => False
  end.
Proof.
  split; [lia|].
  exact (RoundTrip_attempts 2 send_429_then_ok (fun _ => None) (fun _ => t_base)
           ltac:(lia)).
Defined.

(** [RetryTransport.RoundTrip] with a negative [MaxRetries] never calls
    the transport and returns a nil response with a nil error. *)
Theorem RoundTrip_negative_max_retries (maxRetries : Z) (send : nat -> AttemptResult)
    (parseRFC1123 : string -> option Time) (clock : nat -> Time) :
  maxRetries < 0 -> RoundTrip maxRetries send parseRFC1123 clock = (ReturnNothing, []).
Proof.
  intros Hm. unfold RoundTrip. by replace (Z.to_nat (maxRetries + 1)) with 0%nat by lia.
Qed.

Lemma RoundTrip_negative_max_retries_witness :
  -1 < 0 /\ RoundTrip (-1) send_429_then_ok (fun _ => None) (fun _ => t_base) = (ReturnNothing, []).
Proof.
  split; [lia|].
  exact (RoundTrip_negative_max_retries (-1) send_429_then_ok (fun _ => None)
           (fun _ => t_base) ltac:(lia)).
Defined.

Lemma api_call_loop_attempts (maxRetries : Z) (apiCall : nat -> option ApiError)
    (fuel a : nat) (lastErr : option ApiError) :
  (0 < fuel)%nat -> Z.of_nat a + Z.of_nat fuel = maxRetries + 1 ->
  let '(out, sleeps) := api_call_loop maxRetries apiCall a fuel lastErr in
  (length sleeps < fuel)%nat /\
  (forall k, (k < length sleeps)%nat ->
     exists ra, apiCall (a + k)%nat = Some (RateLimitedError ra) /\
       sleeps !! k = Some (if 5 * Minute <? wrap64 (ra * Second) then 5 * Minute
                           else wrap64 (ra * Second))) /\
  match out with
  | None => apiCall (a + length sleeps)%nat = None
  | Some None => False
  | Some (Some err) =>
      apiCall (a + length sleeps)%nat = Some err /\
      (err = OtherError \/ Z.of_nat (a + length sleeps) = maxRetries)
  end.
Proof.
  revert a lastErr. induction fuel as [|fuel IH]; intros a lastErr Hf Hsum; [lia|].
  simpl. destruct (apiCall a) as [err|] eqn:Hcall.
  2: { simpl. rewrite Nat.add_0_r. split; [lia|]. split; [intros; lia|]. done. }
  destruct err as [ra|].
  2: { simpl. rewrite Nat.add_0_r. split; [lia|]. split; [intros; lia|]. auto. }
  destruct (Z.eqb_spec (Z.of_nat a) maxRetries) as [Ha|Ha].
  { simpl. rewrite Nat.add_0_r. split; [lia|]. split; [intros; lia|]. auto. }
  specialize (IH (S a) (Some (RateLimitedError ra)) ltac:(lia) ltac:(lia)).
  destruct (api_call_loop maxRetries apiCall (S a) fuel (Some (RateLimitedError ra)))
    as [out sleeps]. destruct IH as (Hlen & Hk & Hout). simpl.
  split; [lia|]. split.
  - intros [|k] Hk'; simpl.
    + rewrite Nat.add_0_r. eauto.
    + replace (a + S k)%nat with (S a + k)%nat by lia. apply Hk. lia.
  - replace (a + S (length sleeps))%nat with (S a + length sleeps)%nat by lia. done.
Qed.

Lemma api_sleep_capped (ra : Z) :
  (if 5 * Minute <? wrap64 (ra * Second) then 5 * Minute else wrap64 (ra * Second))
  <= 5 * Minute.
Proof. destruct (Z.ltb_spec (5 * Minute) (wrap64 (ra * Second))); lia. Qed.

(** [RetryableAPICall] with [maxRetries >= 0]: it calls [apiCall] at
    most [maxRetries + 1] times and returns nil exactly when the last
    call it made succeeded; every call before the last failed with a
    rate-limit error, after which it slept [RetryAfter] times one second
    (wrapped to 64 bits) capped at 5 minutes, so never longer than 5
    minutes; the error it returns wraps the last call's error, which is
    a non-rate-limit error or comes from the final allowed call. *)
Theorem RetryableAPICall_attempts (r : RetryableSlackClient) (apiCall : nat -> option ApiError) :
  0 <= rsc_maxRetries r ->
  let '(out, sleeps) := RetryableAPICall r apiCall in
  (length sleeps <= Z.to_nat (rsc_maxRetries r))%nat /\
  (forall k, (k < length sleeps)%nat ->
     exists ra, apiCall k = Some (RateLimitedError ra) /\
       sleeps !! k = Some (if 5 * Minute <? wrap64 (ra * Second) then 5 * Minute
                           else wrap64 (ra * Second))) /\
  Forall (fun d => d <= 5 * Minute) sleeps /\
  (out = None <-> apiCall (length sleeps) = None) /\
  (forall err, out = Some (Some err) ->
     apiCall (length sleeps) = Some err /\
     (err = OtherError \/ Z.of_nat (length sleeps) = rsc_maxRetries r)) /\
  out <> Some None.
Proof.
  intros Hm. unfold RetryableAPICall.
  pose proof (api_call_loop_attempts (rsc_maxRetries r) apiCall
                (Z.to_nat (rsc_maxRetries r + 1)) 0 None ltac:(lia) ltac:(lia)) as H.
  destruct (api_call_loop (rsc_maxRetries r) apiCall 0 (Z.to_nat (rsc_maxRetries r + 1)) None)
    as [out sleeps].
  destruct H as (Hlen & Hk & Hout). simpl in Hk, Hout.
  split; [lia|]. split; [exact Hk|]. split.
  { apply Forall_lookup. intros k d Hd.
    assert (Hlt : (k < length sleeps)%nat) by (apply lookup_lt_Some in Hd; lia).
    destruct (Hk k Hlt) as (ra & _ & Hs). rewrite Hs in Hd. injection Hd as <-.
    apply api_sleep_capped. }
  destruct out as [[err|]|]; [|done|].
  - split; [split; [discriminate|intros Hn; rewrite Hn in Hout; by destruct Hout]|].
    split; [|discriminate]. intros err' Herr. injection Herr as <-. exact Hout.
  - split; [done|]. split; [discriminate|]. discriminate.
Qed.

Lemma RetryableAPICall_attempts_witness :
  0 <= rsc_maxRetries (NewRetryableSlackClient 0) /\
  let '(out, sleeps) := RetryableAPICall (NewRetryableSlackClient 0) api_429_then_ok in
  (length sleeps <= Z.to_nat (rsc_maxRetries (NewRetryableSlackClient 0)))%nat /\
  (forall k, (k < length sleeps)%nat ->
     exists ra, api_429_then_ok k = Some (RateLimitedError ra) /\
       sleeps !! k = Some (if 5 * Minute <? wrap64 (ra * Second) then 5 * Minute
                           else wrap64 (ra * Second))) /\
  Forall (fun d => d <= 5 * Minute) sleeps /\
  (out = None <-> api_429_then_ok (length sleeps) = None) /\
  (forall err, out = Some (Some err) ->
     api_429_then_ok (length sleeps) = Some err /\
     (err = OtherError \/ Z.of_nat (length sleeps) = rsc_maxRetries (NewRetryableSlackClient 0))) /\
  out <> Some None.
Proof.
  assert (Hm : 0 <= rsc_maxRetries (NewRetryableSlackClient 0)) by (vm_compute; discriminate).
  split; [exact Hm|].
  exact (RetryableAPICall_attempts (NewRetryableSlackClient 0) api_429_then_ok Hm).
Defined.

(** A client built by [NewRetryableSlackClient] always makes at least
    one attempt: its retry count, the same in the wrapper and in its
    transport, is at least 1 (a non-positive argument becomes 3), so
    its transport never returns a nil response with a nil error and
    [RetryableAPICall] never wraps a nil error. *)
Theorem NewRetryableSlackClient_attempts (maxRetries : Z) :
  let r := NewRetryableSlackClient maxRetries in
  1 <= rsc_maxRetries r /\
  rsc_transportMaxRetries r = rsc_maxRetries r /\
  (maxRetries <= 0 -> rsc_maxRetries r = 3) /\
  (0 < maxRetries -> rsc_maxRetries r = maxRetries) /\
  (forall send parseRFC1123 clock,
     (RoundTrip (rsc_transportMaxRetries r) send parseRFC1123 clock).1 <> ReturnNothing) /\
  (forall apiCall, (RetryableAPICall r apiCall).1 <> Some None).
Proof.
  cbv zeta.
  assert (Hpos : 1 <= rsc_maxRetries (NewRetryableSlackClient maxRetries)).
  { unfold NewRetryableSlackClient. simpl. destruct (Z.leb_spec maxRetries 0); lia. }
  assert (Heq : rsc_transportMaxRetries (NewRetryableSlackClient maxRetries)
                = rsc_maxRetries (NewRetryableSlackClient maxRetries)) by reflexivity.
  split; [exact Hpos|]. split; [exact Heq|].
  split; [unfold NewRetryableSlackClient; simpl; intros; destruct (Z.leb_spec maxRetries 0); lia|].
  split; [unfold NewRetryableSlackClient; simpl; intros; destruct (Z.leb_spec maxRetries 0); lia|].
  split.
  - intros send parseRFC1123 clock. rewrite Heq. unfold RoundTrip.
    set (m := rsc_maxRetries (NewRetryableSlackClient maxRetries)) in *.
    pose proof (round_trip_loop_attempts m send parseRFC1123 clock
                  (Z.to_nat (m + 1)) 0 ltac:(lia) ltac:(lia)) as H.
    destruct (round_trip_loop m send parseRFC1123 clock 0 (Z.to_nat (m + 1)))
      as [[st| |] sleeps]; simpl; [discriminate|discriminate|]. by destruct H as (_ & _ & []).
  - intros apiCall. unfold RetryableAPICall.
    set (m := rsc_maxRetries (NewRetryableSlackClient maxRetries)) in *.
    pose proof (api_call_loop_attempts m apiCall (Z.to_nat (m + 1)) 0 None ltac:(lia) ltac:(lia))
      as H.
    destruct (api_call_loop m apiCall 0 (Z.to_nat (m + 1)) None) as [[[err|]|] sleeps];
      simpl; [discriminate| |discriminate]. by destruct H as (_ & _ & []).
Qed.

End RetryLoops.

(* ----------------------------------------------------------------- *)
(** ** Token store round trips *)

Section TokenStoreRoundTrips.

Lemma map_roundtrip_normal (l : list StoredToken) :
  json_normal l -> map json_roundtrip l = l.
Proof. induction 1 as [|t l Ht _ IH]; simpl; congruence. Qed.

Lemma stored_token_normal (enc : string) (now : Time) (s : string) :
  valid_utf8 s -> valid_utf8 enc ->
  json_roundtrip (mkStoredToken s "" "" "access" None [] now None enc)
  = mkStoredToken s "" "" "access" None [] now None enc.
Proof.
  unfold valid_utf8. intros Hs Henc. unfold json_roundtrip. simpl.
  rewrite Hs, Henc. reflexivity.
Qed.

Lemma find_token_app_notin (s : string) (pre l : list StoredToken) :
  ~ In s (map ServiceName pre) -> find_token s (pre ++ l) = find_token s l.
Proof.
  induction pre as [|t pre IH]; simpl; [done|]. intros Hn.
  destruct (String.eqb_spec (ServiceName t) s) as [E|E]; [exfalso; auto|].
  apply IH. auto.
Qed.

Lemma find_token_head (s : string) (t : StoredToken) (l : list StoredToken) :
  ServiceName t = s -> find_token s (t :: l) = Some t.
Proof. intros <-. simpl. by rewrite String.eqb_refl. Qed.

Lemma roundtrip_with_last_refresh (now : Time) (t : StoredToken) :
  json_roundtrip (with_last_refresh now t) = with_last_refresh now (json_roundtrip t).
Proof. by destruct t. Qed.

Lemma set_first_refresh_normal (s : string) (now : Time) (l : list StoredToken) :
  json_normal l -> json_normal (set_first_refresh s now l).
Proof.
  induction 1 as [|t l Ht Hl IH]; simpl; [constructor|].
  destruct (String.eqb (ServiceName t) s); constructor; auto.
  change (json_roundtrip (with_last_refresh now t) = with_last_refresh now t).
  by rewrite roundtrip_with_last_refresh, Ht.
Qed.

Lemma find_token_set_first_refresh (s : string) (now : Time) (l : list StoredToken) :
  find_token s (set_first_refresh s now l) = option_map (with_last_refresh now) (find_token s l).
Proof.
  induction l as [|t l IH]; simpl; [done|].
  destruct (String.eqb (ServiceName t) s) eqn:E; simpl.
  - by rewrite E.
  - by rewrite E.
Qed.

Lemma apply_payload_with_last_refresh (parseRFC3339 : string -> option Time)
    (p : TokenPayload) (now : Time) (t : StoredToken) :
  apply_payload parseRFC3339 p (with_last_refresh now t)
  = with_last_refresh now (apply_payload parseRFC3339 p t).
Proof. by destruct t. Qed.

Lemma find_token_filter_out (s : string) (l : list StoredToken) :
  find_token s (List.filter (fun t => negb (String.eqb (ServiceName t) s)) l) = None.
Proof.
  induction l as [|t l IH]; simpl; [done|].
  destruct (String.eqb (ServiceName t) s) eqn:E; simpl; [done|]. by rewrite E.
Qed.

Lemma names_filter_out (s : string) (l : list StoredToken) :
  map ServiceName (List.filter (fun t => negb (String.eqb (ServiceName t) s)) l)
  = List.filter (fun n => negb (String.eqb n s)) (map ServiceName l).
Proof.
  induction l as [|t l IH]; simpl; [done|].
  destruct (String.eqb (ServiceName t) s); simpl; congruence.
Qed.

(** [StoreToken] then [GetToken]: on a missing file or one written by
    [saveTokens], storing a token for a service (with a valid UTF-8 name
    and ciphertext) and a successful write make [GetToken] find that
    very token, [TokenType] "access", [CreatedAt] the store time, no
    [LastRefresh], its fields decrypted from the stored ciphertext;
    [ListServices] then lists the old services in their order, with the
    new one appended if it was not there; the file is still as
    [saveTokens] writes it. *)
Theorem StoreToken_GetToken (enc : string) (now : Time) (s a r : string)
    (e : option Time) (sc : list string) (f : StoreFile)
    (openData : string -> option TokenPayload) (parseRFC3339 : string -> option Time) :
  valid_utf8 s -> valid_utf8 enc ->
  f <> FileBroken -> (forall l, f = FileTokens l -> json_normal l) ->
  let names := match ListServices f with inr n => n | inl _ => [] end in
  exists l', StoreToken (Some enc) now WriteOk s a r e sc f = (None, FileTokens l') /\
    json_normal l' /\
    GetToken openData parseRFC3339 s (FileTokens l')
    = match openData enc with
      | None => inl ErrGetDecrypt
      | Some p => inr (apply_payload parseRFC3339 p
                         (mkStoredToken s "" "" "access" None [] now None enc))
      end /\
    ListServices (FileTokens l') = inr (if bool_decide (s ∈ names) then names else names ++ [s]).
Proof.
  intros Hs Henc Hf Hn. cbv zeta.
  set (tok := mkStoredToken s "" "" "access" None [] now None enc).
  assert (Htok : json_roundtrip tok = tok) by (apply stored_token_normal; assumption).
  destruct f as [| |l]; [|done|].
  - exists [tok]. unfold StoreToken. simpl. fold tok. rewrite Htok.
    split; [done|]. split; [by constructor|]. split.
    + unfold GetToken. simpl. by rewrite String.eqb_refl.
    + done.
  - specialize (Hn l eq_refl).
    assert (Hnames : (match ListServices (FileTokens l) with inr n => n | inl _ => [] end)
                     = map ServiceName l) by reflexivity.
    rewrite Hnames.
    destruct (StoreToken_upsert enc now s a r e sc l)
      as [(pre & t & post & -> & Ht & Hpre & Hst)|[Hnot Hst]]; fold tok in Hst;
      rewrite Hst.
    + apply Forall_app in Hn as [Hpre_n Hpost_n]. apply Forall_cons in Hpost_n as [_ Hpost_n].
      rewrite map_app. simpl. rewrite Htok, !map_roundtrip_normal by assumption.
      eexists. split; [reflexivity|]. split.
      { apply Forall_app. split; [done|]. by constructor. }
      split.
      * unfold GetToken. simpl. rewrite find_token_app_notin by assumption.
        by rewrite find_token_head.
      * unfold ListServices. simpl. rewrite bool_decide_true.
        { rewrite !map_app. simpl. by rewrite Ht. }
        rewrite map_app. simpl. rewrite Ht. set_solver.
    + rewrite map_app. simpl. rewrite Htok, map_roundtrip_normal by assumption.
      eexists. split; [reflexivity|]. split.
      { apply Forall_app. split; [done|]. by constructor. }
      split.
      * unfold GetToken. simpl. rewrite find_token_app_notin by assumption.
        by rewrite find_token_head.
      * unfold ListServices. simpl. rewrite bool_decide_false.
        { by rewrite map_app. }
        rewrite list_elem_of_In. exact Hnot.
Qed.

Lemma StoreToken_GetToken_witness :
  valid_utf8 "github" /\ valid_utf8 "c2VhbGVk" /\ FileMissing <> FileBroken /\
  (forall l, FileMissing = FileTokens l -> json_normal l) /\
  let names := match ListServices FileMissing with inr n => n | inl _ => [] end in
  exists l', StoreToken (Some "c2VhbGVk") t_base WriteOk "github" "ghp" "" None [] FileMissing
             = (None, FileTokens l') /\
    json_normal l' /\
    GetToken (fun _ => None) (fun _ => None) "github" (FileTokens l')
    = match (fun _ : string => @None TokenPayload) "c2VhbGVk" with
      | None => inl ErrGetDecrypt
      | Some p => inr (apply_payload (fun _ => None) p
                         (mkStoredToken "github" "" "" "access" None [] t_base None "c2VhbGVk"))
      end /\
    ListServices (FileTokens l')
    = inr (if bool_decide ("github" ∈ names) then names else names ++ ["github"]).
Proof.
  assert (H1 : valid_utf8 "github") by (vm_compute; reflexivity).
  assert (H2 : valid_utf8 "c2VhbGVk") by (vm_compute; reflexivity).
  assert (H3 : FileMissing <> FileBroken) by discriminate.
  assert (H4 : forall l, FileMissing = FileTokens l -> json_normal l) by discriminate.
  split; [exact H1|]. split; [exact H2|]. split; [exact H3|]. split; [exact H4|].
  exact (StoreToken_GetToken "c2VhbGVk" t_base "github" "ghp" "" None [] FileMissing
           (fun _ => None) (fun _ => None) H1 H2 H3 H4).
Defined.

(** [UpdateRefreshTime] then [GetToken]: on a file written by
    [saveTokens], a successful update changes what [GetToken] returns
    for the service only in its [LastRefresh], now the update time (a
    service without a token stays not found), and leaves
    [ListServices] unchanged. *)
Theorem UpdateRefreshTime_GetToken (now : Time) (s : string) (l : list StoredToken)
    (openData : string -> option TokenPayload) (parseRFC3339 : string -> option Time) :
  json_normal l ->
  exists l', UpdateRefreshTime now WriteOk s (FileTokens l) = (None, FileTokens l') /\
    json_normal l' /\
    GetToken openData parseRFC3339 s (FileTokens l')
    = match GetToken openData parseRFC3339 s (FileTokens l) with
      | inr t => inr (with_last_refresh now t)
      | inl err => inl err
      end /\
    ListServices (FileTokens l') = ListServices (FileTokens l).
Proof.
  intros Hn. exists (set_first_refresh s now l).
  pose proof (set_first_refresh_normal s now l Hn) as Hn'.
  split; [unfold UpdateRefreshTime; simpl; by rewrite map_roundtrip_normal|].
  split; [exact Hn'|]. split.
  - unfold GetToken. simpl. rewrite find_token_set_first_refresh.
    destruct (find_token s l) as [t|]; simpl; [|done].
    destruct (openData (EncryptedData t)); [|done].
    by rewrite apply_payload_with_last_refresh.
  - unfold ListServices. simpl. by rewrite set_first_refresh_names.
Qed.

Lemma UpdateRefreshTime_GetToken_witness :
  json_normal sample_tokens /\
  exists l', UpdateRefreshTime (t_plus 5) WriteOk "slack" (FileTokens sample_tokens)
             = (None, FileTokens l') /\
    json_normal l' /\
    GetToken (fun _ => None) (fun _ => None) "slack" (FileTokens l')
    = match GetToken (fun _ => None) (fun _ => None) "slack" (FileTokens sample_tokens) with
      | inr t => inr (with_last_refresh (t_plus 5) t)
      | inl err => inl err
      end /\
    ListServices (FileTokens l') = ListServices (FileTokens sample_tokens).
Proof.
  assert (Hn : json_normal sample_tokens)
    by (repeat (constructor; [vm_compute; reflexivity|]); constructor).
  split; [exact Hn|].
  exact (UpdateRefreshTime_GetToken (t_plus 5) "slack" sample_tokens
           (fun _ => None) (fun _ => None) Hn).
Defined.

(** [DeleteToken] then [GetToken]: on a file written by [saveTokens], a
    successful delete leaves no token for the service, so [GetToken]
    reports it not found, and [ListServices] lists the other services
    in their previous order. *)
Theorem DeleteToken_GetToken (s : string) (l : list StoredToken)
    (openData : string -> option TokenPayload) (parseRFC3339 : string -> option Time) :
  json_normal l ->
  exists l', DeleteToken WriteOk s (FileTokens l) = (None, FileTokens l') /\
    json_normal l' /\
    GetToken openData parseRFC3339 s (FileTokens l') = inl ErrGetNotFound /\
    ListServices (FileTokens l')
    = inr (List.filter (fun n => negb (String.eqb n s)) (map ServiceName l)).
Proof.
  intros Hn.
  set (l' := List.filter (fun t => negb (String.eqb (ServiceName t) s)) l).
  assert (Hn' : json_normal l').
  { unfold json_normal in *. rewrite Forall_forall in Hn |- *. intros x Hx.
    apply list_elem_of_In, filter_In in Hx as [Hx _]. apply Hn, list_elem_of_In, Hx. }
  exists l'. split; [unfold DeleteToken; simpl; by rewrite map_roundtrip_normal|].
  split; [exact Hn'|]. split.
  - unfold GetToken, l'. simpl. by rewrite find_token_filter_out.
  - unfold ListServices, l'. simpl. by rewrite names_filter_out.
Qed.

Lemma DeleteToken_GetToken_witness :
  json_normal sample_tokens /\
  exists l', DeleteToken WriteOk "github" (FileTokens sample_tokens) = (None, FileTokens l') /\
    json_normal l' /\
    GetToken (fun _ => None) (fun _ => None) "github" (FileTokens l') = inl ErrGetNotFound /\
    ListServices (FileTokens l')
    = inr (List.filter (fun n => negb (String.eqb n "github")) (map ServiceName sample_tokens)).
Proof.
  assert (Hn : json_normal sample_tokens)
    by (repeat (constructor; [vm_compute; reflexivity|]); constructor).
  split; [exact Hn|].
  exact (DeleteToken_GetToken "github" sample_tokens (fun _ => None) (fun _ => None) Hn).
Defined.

End TokenStoreRoundTrips.

(* ----------------------------------------------------------------- *)
(** ** Rows written by [InsertEvents]; attachment row IDs *)

Section InsertEventsRows.

Lemma replace_spaces_app (a b : string) :
  replace_spaces (a +:+ b) = replace_spaces a +:+ replace_spaces b.
Proof. induction a as [|c a IH]; simpl; [done|]. rewrite IH. reflexivity. Qed.

Lemma replace_spaces_idem (s : string) : replace_spaces (replace_spaces s) = replace_spaces s.
Proof.
  induction s as [|c s IH]; simpl; [done|]. rewrite IH.
  destruct (Ascii.eqb c " "%char) eqn:E; simpl; [done|]. by rewrite E.
Qed.

Lemma replace_spaces_no_space (s : string) :
  " "%char ∉ String.list_ascii_of_string (replace_spaces s).
Proof.
  induction s as [|c s IH]; simpl; [by apply not_elem_of_nil|].
  rewrite elem_of_cons. intros [Hc|Hc]; [|done].
  destruct (Ascii.eqb_spec c " "%char) as [E|E]; [discriminate|]. by subst c.
Qed.

Lemma string_app_assoc (a b c : string) : a +:+ (b +:+ c) = (a +:+ b) +:+ c.
Proof.
  induction a as [|x a IH]; [reflexivity|].
  change (String x (a +:+ (b +:+ c)) = String x ((a +:+ b) +:+ c)). by rewrite IH.
Qed.

(** [attachmentRowID] never yields a space, and is not injective: an
    event ID or file ID and the same ID with its spaces turned into
    underscores give the same row ID, and so do ([e ++ "_"], [f]) and
    ([e], ["_" ++ f]); [INSERT OR REPLACE] then makes such attachments
    share one row. *)
Theorem attachmentRowID_collisions (eventID fileID : string) :
  (" "%char ∉ String.list_ascii_of_string (attachmentRowID eventID fileID)) /\
  attachmentRowID eventID fileID
  = attachmentRowID (replace_spaces eventID) (replace_spaces fileID) /\
  attachmentRowID (eventID +:+ "_") fileID = attachmentRowID eventID ("_" +:+ fileID).
Proof.
  unfold attachmentRowID. split; [apply replace_spaces_no_space|]. split.
  - rewrite !replace_spaces_app, !replace_spaces_idem. reflexivity.
  - by rewrite <- !string_app_assoc.
Qed.

Lemma attachment_rows_success (ok : nat -> bool) (now : Z) (e : Event)
    (atts : list EventAttachment) (st st' : TxState) (u : unit) :
  insert_attachment_rows ok now e atts st = (inr u, st') ->
  tx_attachments st' = fold_left (put_attachment_row now e) atts (tx_attachments st).
Proof.
  revert st. induction atts as [|a atts IH]; intros st Hrun; simpl in *.
  - by inversion Hrun.
  - unfold put_attachment_row at 2.
    destruct (String.eqb (FileID a) ""); [by apply IH|].
    rewrite tx_bind_run in Hrun. unfold exec_stmt in Hrun.
    destruct (ok (tx_next st)); simpl in Hrun; [|discriminate].
    by rewrite (IH _ Hrun).
Qed.

Lemma attachments_success (ok : nat -> bool) (now : Z) (e : Event)
    (st st' : TxState) (u : unit) :
  insertAttachmentsTx ok now e st = (inr u, st') ->
  tx_attachments st' = fold_left (put_attachment_row now e) (Attachments e) (tx_attachments st).
Proof.
  unfold insertAttachmentsTx. destruct (Attachments e) as [|a atts].
  - intros H. by inversion H.
  - rewrite tx_bind_run. unfold exec_stmt.
    destruct (ok (tx_next st)); simpl; [|discriminate].
    intros Hrun. by rewrite (attachment_rows_success ok now e (a :: atts) _ _ _ Hrun).
Qed.

Lemma event_rows_success_att (ok : nat -> bool) (now : Z) (events : list Event)
    (st st' : TxState) (u : unit) :
  insert_event_rows ok now events st = (inr u, st') ->
  tx_attachments st' = attach_all now events (tx_attachments st).
Proof.
  unfold attach_all.
  revert st. induction events as [|e events IH]; intros st Hrun; simpl in *.
  - by inversion Hrun.
  - rewrite tx_bind_run in Hrun. unfold exec_stmt in Hrun.
    destruct (ok (tx_next st)); simpl in Hrun; [|discriminate].
    rewrite tx_bind_run in Hrun.
    set (st1 := put_event now e _) in Hrun.
    destruct (insertAttachmentsTx ok now e st1) as [[err|[]] st2] eqn:Hatt; [discriminate|].
    rewrite (IH _ Hrun), (attachments_success ok now e st1 st2 tt Hatt). done.
Qed.

Lemma InsertEvents_success_att (ok : nat -> bool) (now : Z) (db db' : DB) (events : list Event)
    (log : list (SqlOp * bool)) :
  InsertEvents ok now db events = (None, db', log) ->
  attachments_table db' = attach_all now events (attachments_table db).
Proof.
  unfold InsertEvents. rewrite !tx_bind_run. unfold exec_stmt at 1. simpl.
  destruct (ok 0%nat); simpl; [|discriminate].
  rewrite !tx_bind_run. unfold exec_stmt at 1. simpl.
  destruct (ok 1%nat); simpl; [|discriminate].
  rewrite !tx_bind_run.
  destruct (insert_event_rows ok now events _) as [[err|[]] st] eqn:Hrows; [discriminate|].
  apply event_rows_success_att in Hrows. simpl in Hrows.
  unfold exec_stmt. destruct (ok (tx_next st)); simpl; [|discriminate].
  intros Heq. inversion Heq. simpl. done.
Qed.

Lemma put_attachment_rows_lookup (now : Z) (e : Event) (atts : list EventAttachment)
    (m : gmap string AttachmentRow) (k : string) :
  k ∉ map (fun a => attachmentRowID (ID e) (FileID a))
          (List.filter (fun a => negb (String.eqb (FileID a) "")) atts) ->
  fold_left (put_attachment_row now e) atts m !! k = m !! k.
Proof.
  revert m. induction atts as [|a atts IH]; intros m Hk; [done|].
  cbn [fold_left List.filter] in *.
  destruct (String.eqb (FileID a) "") eqn:E; simpl in Hk.
  - rewrite IH by exact Hk. unfold put_attachment_row. by rewrite E.
  - rewrite elem_of_cons in Hk. apply Decidable.not_or in Hk as [Hk1 Hk2].
    rewrite IH by exact Hk2. unfold put_attachment_row. rewrite E.
    by rewrite lookup_insert_ne by congruence.
Qed.

Lemma put_attachment_rows_dom (now : Z) (e : Event) (atts : list EventAttachment)
    (m : gmap string AttachmentRow) :
  dom (fold_left (put_attachment_row now e) atts m) = dom m ∪
    list_to_set (map (fun a => attachmentRowID (ID e) (FileID a))
                   (List.filter (fun a => negb (String.eqb (FileID a) "")) atts)).
Proof.
  revert m. induction atts as [|a atts IH]; intros m.
  - simpl. set_solver.
  - cbn [fold_left List.filter]. rewrite IH. unfold put_attachment_row.
    destruct (String.eqb (FileID a) ""); simpl; [done|].
    rewrite dom_insert_L. set_solver.
Qed.

Lemma attach_all_lookup_dom (now : Z) (events : list Event) (m : gmap string AttachmentRow) :
  dom (attach_all now events m) = dom m ∪ list_to_set (attachment_keys events) /\
  (forall k, k ∉ attachment_keys events -> attach_all now events m !! k = m !! k).
Proof.
  unfold attach_all, attachment_keys.
  revert m. induction events as [|e events IH]; intros m; simpl.
  - split; [set_solver|done].
  - destruct (IH (fold_left (put_attachment_row now e) (Attachments e) m)) as [Hd Hl].
    split.
    + rewrite Hd, put_attachment_rows_dom, list_to_set_app_L. set_solver.
    + intros k Hk. rewrite elem_of_app in Hk. apply Decidable.not_or in Hk as [Hk1 Hk2].
      rewrite Hl by exact Hk2. by apply put_attachment_rows_lookup.
Qed.

Lemma last_event_with_id_none (id : string) (events : list Event) :
  id ∉ map ID events -> last_event_with_id id events = None.
Proof.
  induction events as [|e events IH]; simpl; [done|].
  rewrite elem_of_cons. intros Hn. apply Decidable.not_or in Hn as [Hn1 Hn2].
  rewrite IH by exact Hn2.
  destruct (String.eqb_spec (ID e) id) as [E|E]; [congruence|done].
Qed.

(** A successful [InsertEvents] only adds or replaces rows: the events
    table gains exactly the batch's event IDs, the attachment table
    exactly the row IDs of the batch's attachments with a non-empty
    [FileID], and every other row of either table is left as it was. *)
Theorem InsertEvents_rows (ok : nat -> bool) (now : Z) (db : DB) (events : list Event) :
  (InsertEvents ok now db events).1.1 = None ->
  let db' := (InsertEvents ok now db events).1.2 in
  dom (events_table db') = dom (events_table db) ∪ list_to_set (map ID events) /\
  dom (attachments_table db') = dom (attachments_table db) ∪ list_to_set (attachment_keys events) /\
  (forall k, k ∉ map ID events -> events_table db' !! k = events_table db !! k) /\
  (forall k, k ∉ attachment_keys events -> attachments_table db' !! k = attachments_table db !! k).
Proof.
  intros Hnone. cbv zeta.
  destruct (InsertEvents ok now db events) as [[r db'] log] eqn:Hi.
  simpl in Hnone. subst r. simpl.
  rewrite (InsertEvents_success ok now db db' events log Hi),
    (InsertEvents_success_att ok now db db' events log Hi).
  destruct (attach_all_lookup_dom now events (attachments_table db)) as [Hd Hl].
  split; [apply upsert_all_dom|]. split; [exact Hd|]. split; [|exact Hl].
  intros k Hk. rewrite upsert_all_lookup. by rewrite last_event_with_id_none.
Qed.

Lemma InsertEvents_rows_witness :
  (InsertEvents (fun _ => true) 0 empty_db sample_batch).1.1 = None /\
  let db' := (InsertEvents (fun _ => true) 0 empty_db sample_batch).1.2 in
  dom (events_table db') = dom (events_table empty_db) ∪ list_to_set (map ID sample_batch) /\
  dom (attachments_table db') = dom (attachments_table empty_db) ∪
    list_to_set (attachment_keys sample_batch) /\
  (forall k, k ∉ map ID sample_batch -> events_table db' !! k = events_table empty_db !! k) /\
  (forall k, k ∉ attachment_keys sample_batch ->
     attachments_table db' !! k = attachments_table empty_db !! k).
Proof.
  assert (H : (InsertEvents (fun _ => true) 0 empty_db sample_batch).1.1 = None)
    by (vm_compute; reflexivity).
  split; [exact H|].
  exact (InsertEvents_rows (fun _ => true) 0 empty_db sample_batch H).
Defined.

End InsertEventsRows.


(* ----------------------------------------------------------------- *)
(** ** [GetStats] and [DeleteOldEvents] *)

Section StatsAndCleanup.

Lemma fold_insert_notin (groups : list (string * Z)) (m : gmap string Z) (s : string) :
  s ∉ map fst groups ->
  fold_left (fun m (sc : string * Z) => <[sc.1 := sc.2]> m) groups m !! s = m !! s.
Proof.
  revert m. induction groups as [|[s' c'] g IH]; intros m Hs; simpl in *; [done|].
  rewrite elem_of_cons in Hs. apply Decidable.not_or in Hs as [Hs1 Hs2].
  rewrite IH by exact Hs2. by rewrite lookup_insert_ne by congruence.
Qed.

Lemma fold_insert_elem (groups : list (string * Z)) (m : gmap string Z) (s : string) (c : Z) :
  NoDup (map fst groups) -> (s, c) ∈ groups ->
  fold_left (fun m (sc : string * Z) => <[sc.1 := sc.2]> m) groups m !! s = Some c.
Proof.
  revert m. induction groups as [|[s' c'] g IH]; intros m Hnd Hin; simpl in *.
  - by apply elem_of_nil in Hin.
  - apply NoDup_cons in Hnd as [Hnd1 Hnd2].
    apply elem_of_cons in Hin as [Heq|Hin].
    + inversion Heq; subst s' c'. rewrite fold_insert_notin by exact Hnd1.
      by rewrite lookup_insert_eq.
    + by apply IH.
Qed.

Lemma elem_of_map_In {A B} (f : A -> B) (l : list A) (y : B) :
  y ∈ map f l <-> exists x, f x = y /\ In x l.
Proof. rewrite list_elem_of_In. apply in_map_iff. Qed.

Lemma count_pos (l : list (string * EventRow)) (s : string) :
  (0 < length (List.filter (fun ir : string * EventRow => String.eqb (r_service ir.2) s) l))%nat <->
  s ∈ map (fun ir : string * EventRow => r_service ir.2) l.
Proof.
  induction l as [|ir l IH]; simpl.
  - split; [lia|]. intros H. by apply elem_of_nil in H.
  - rewrite elem_of_cons.
    destruct (String.eqb_spec (r_service ir.2) s) as [E|E]; simpl.
    + split; [intros _; by left|lia].
    + rewrite IH. split; [by right|]. intros [H|H]; [congruence|exact H].
Qed.

Lemma stats_groups_elem (rows : gmap string EventRow) (s : string) (c : Z) :
  (s, c) ∈ stats_groups rows <->
  (0 < service_count rows s)%nat /\ c = Z.of_nat (service_count rows s).
Proof.
  unfold stats_groups. rewrite elem_of_map_In. split.
  - intros [x [Hx Hin]]. inversion Hx; subst x c.
    apply (proj2 (list_elem_of_In _ _)), (proj1 (elem_of_remove_dups _ _)) in Hin.
    split; [|done]. unfold service_count. by apply count_pos.
  - intros [Hpos ->]. exists s. split; [done|].
    apply (proj1 (list_elem_of_In _ _)), (proj2 (elem_of_remove_dups _ _)).
    by apply count_pos.
Qed.

Lemma stats_groups_nodup (rows : gmap string EventRow) :
  NoDup (map fst (stats_groups rows)).
Proof.
  unfold stats_groups. rewrite map_map. simpl. rewrite map_id. apply NoDup_remove_dups.
Qed.

Lemma prefix_groups (rows : gmap string EventRow) (groups rest : list (string * Z)) :
  groups ++ rest ≡ₚ stats_groups rows ->
  NoDup (map fst groups) /\ (forall s c, (s, c) ∈ groups -> (s, c) ∈ stats_groups rows).
Proof.
  intros Hp. split.
  - assert (Hnd : NoDup (map fst (groups ++ rest))).
    { rewrite (Permutation_map fst Hp). apply stats_groups_nodup. }
    rewrite map_app in Hnd. by apply NoDup_app in Hnd as [? _].
  - intros s c Hin. rewrite <- Hp. apply elem_of_app. by left.
Qed.

(** [GetStats] reports, for every service it lists, the number of its
    stored events, and lists no service without events; ["total"] holds
    the row count unless a service is itself named ["total"], whose
    count then overwrites it. The per-service loop stops silently when
    the iteration fails ([rows.Err()] is unchecked): a service whose
    grouped row was not read is absent while the call reports no error;
    when every grouped row is read, every service with events is listed. The call fails exactly
    when one of its two queries fails. *)
Theorem GetStats_spec (ok : nat -> bool) (groups rest : list (string * Z)) (db : DB) :
  groups ++ rest ≡ₚ stats_groups (events_table db) ->
  match GetStats ok groups db with
  | inl _ => ok 0%nat && ok 1%nat = false
  | inr stats =>
      ok 0%nat && ok 1%nat = true /\
      (forall s c, s <> "total" -> stats !! s = Some c ->
         (0 < service_count (events_table db) s)%nat /\
         c = Z.of_nat (service_count (events_table db) s)) /\
      (forall s, service_count (events_table db) s = 0%nat -> s <> "total" -> stats !! s = None) /\
      (forall s, s <> "total" -> s ∉ map fst groups -> stats !! s = None) /\
      stats !! "total" = Some (if bool_decide ("total" ∈ map fst groups)
                               then Z.of_nat (service_count (events_table db) "total")
                               else Z.of_nat (size (events_table db))) /\
      (rest = [] -> forall s, (0 < service_count (events_table db) s)%nat ->
         stats !! s = Some (Z.of_nat (service_count (events_table db) s)))
  end.
Proof.
  intros Hp. destruct (prefix_groups _ groups rest Hp) as [Hnd Hsub].
  unfold GetStats. destruct (ok 0%nat); simpl; [|done]. destruct (ok 1%nat); simpl; [|done].
  set (m0 := <["total" := Z.of_nat (size (events_table db))]> (∅ : gmap string Z)).
  set (stats := fold_left (fun m (sc : string * Z) => <[sc.1 := sc.2]> m) groups m0).
  assert (Hin : forall s, s ∈ map fst groups -> exists c, (s, c) ∈ groups).
  { intros s Hs. apply elem_of_map_In in Hs as [[s' c] [Hs' Hin]]. simpl in Hs'. subst s'.
    exists c. by apply list_elem_of_In. }
  assert (Hnot : forall s, s ∉ map fst groups -> stats !! s = m0 !! s).
  { intros s Hs. by apply fold_insert_notin. }
  split; [done|]. split; [|split; [|split; [|split]]].
  - intros s c Hs Hl. destruct (decide (s ∈ map fst groups)) as [Hg|Hg].
    + destruct (Hin s Hg) as [c' Hc']. unfold stats in Hl.
      rewrite (fold_insert_elem groups m0 s c' Hnd Hc') in Hl. inversion Hl; subst c'.
      apply stats_groups_elem. by apply Hsub.
    + rewrite Hnot in Hl by exact Hg. unfold m0 in Hl.
      rewrite lookup_insert_ne in Hl by congruence. by rewrite lookup_empty in Hl.
  - intros s H0 Hs. destruct (decide (s ∈ map fst groups)) as [Hg|Hg].
    + destruct (Hin s Hg) as [c Hc]. apply Hsub, stats_groups_elem in Hc. lia.
    + rewrite Hnot by exact Hg. unfold m0.
      rewrite lookup_insert_ne by congruence. apply lookup_empty.
  - intros s Hs Hg. rewrite Hnot by exact Hg. unfold m0.
    rewrite lookup_insert_ne by congruence. apply lookup_empty.
  - case_bool_decide as Hg.
    + destruct (Hin _ Hg) as [c Hc]. unfold stats.
      rewrite (fold_insert_elem groups m0 _ c Hnd Hc).
      apply Hsub, stats_groups_elem in Hc as [_ ->]. done.
    + rewrite Hnot by exact Hg. unfold m0. apply lookup_insert_eq.
  - intros -> s Hpos. rewrite app_nil_r in Hp.
    apply fold_insert_elem; [exact Hnd|]. rewrite Hp. by apply stats_groups_elem.
Qed.

Lemma GetStats_spec_witness :
  partial_groups ++ unread_groups ≡ₚ stats_groups (events_table mixed_zone_db) /\
  match GetStats (fun _ => true) partial_groups mixed_zone_db with
  | inl _ => (fun _ : nat => true) 0%nat && (fun _ : nat => true) 1%nat = false
  | inr stats =>
      (fun _ : nat => true) 0%nat && (fun _ : nat => true) 1%nat = true /\
      (forall s c, s <> "total" -> stats !! s = Some c ->
         (0 < service_count (events_table mixed_zone_db) s)%nat /\
         c = Z.of_nat (service_count (events_table mixed_zone_db) s)) /\
      (forall s, service_count (events_table mixed_zone_db) s = 0%nat -> s <> "total" ->
         stats !! s = None) /\
      (forall s, s <> "total" -> s ∉ map fst partial_groups -> stats !! s = None) /\
      stats !! "total" = Some (if bool_decide ("total" ∈ map fst partial_groups)
                               then Z.of_nat (service_count (events_table mixed_zone_db) "total")
                               else Z.of_nat (size (events_table mixed_zone_db))) /\
      (unread_groups = [] -> forall s, (0 < service_count (events_table mixed_zone_db) s)%nat ->
         stats !! s = Some (Z.of_nat (service_count (events_table mixed_zone_db) s)))
  end /\
  (exists s, (0 < service_count (events_table mixed_zone_db) s)%nat /\
     match GetStats (fun _ => true) partial_groups mixed_zone_db with
     | inr stats => stats !! s = None
     | inl _ => False
     end).
Proof.
  assert (Hp : partial_groups ++ unread_groups ≡ₚ stats_groups (events_table mixed_zone_db))
    by (unfold partial_groups, unread_groups; rewrite take_drop; reflexivity).
  split; [exact Hp|]. split.
  - exact (GetStats_spec (fun _ => true) partial_groups unread_groups mixed_zone_db Hp).
  - first [ exists "github"%string; split; [apply Nat.ltb_lt; vm_compute; reflexivity
                                          |vm_compute; reflexivity]
          | exists "google_calendar"%string; split; [apply Nat.ltb_lt; vm_compute; reflexivity
                                                   |vm_compute; reflexivity] ].
Defined.

(** [DeleteOldEvents] removes exactly the event rows whose stored
    timestamp text sorts before the cutoff's text, keeps every other row
    as it was, and never touches [event_attachments]: the attachment
    rows of a deleted event stay behind. The cutoff is [olderThan]
    before now, except for the minimal duration, whose int64 negation
    overflows to itself and moves the cutoff that far into the past. A
    failed statement leaves the database as it was. *)
Theorem DeleteOldEvents_spec (ok : nat -> bool) (now : Time) (olderThan : Z) (db : DB) :
  let cutoff := delete_cutoff now olderThan in
  (minDuration < olderThan <= maxDuration -> t_unix_ns cutoff = t_unix_ns now - olderThan) /\
  (olderThan = minDuration -> t_unix_ns cutoff = t_unix_ns now + minDuration) /\
  t_offset cutoff = t_offset now /\
  match DeleteOldEvents ok now olderThan db with
  | (None, db') =>
      ok 0%nat = true /\
      (forall id, events_table db' !! id =
         match events_table db !! id with
         | Some row => if text_lt (go_format (r_timestamp row)) (go_format cutoff)
                       then None else Some row
         | None => None
         end) /\
      attachments_table db' = attachments_table db
  | (Some _, db') => ok 0%nat = false /\ db' = db
  end.
Proof.
  cbv zeta. split; [|split; [|split]].
  - unfold delete_cutoff, minDuration, maxDuration, wrap64. simpl.
    intros H. rewrite Z.mod_small by lia. lia.
  - unfold delete_cutoff, minDuration, wrap64. simpl.
    intros ->. replace (- - 2 ^ 63 + 2 ^ 63) with (1 * 2 ^ 64) by lia.
    rewrite Z.mod_mul by lia. lia.
  - done.
  - unfold DeleteOldEvents. destruct (ok 0%nat) eqn:Hok; [|done].
    split; [done|]. split; [|done]. intros id. cbn [events_table].
    destruct (events_table db !! id) as [row|] eqn:Hl.
    + destruct (text_lt (go_format (r_timestamp row))
                  (go_format (delete_cutoff now olderThan))) eqn:Ht.
      * apply map_lookup_filter_None. right. intros x Hx. rewrite Hl in Hx.
        inversion Hx; subst x. simpl. rewrite Ht. discriminate.
      * apply map_lookup_filter_Some. by split.
    + apply map_lookup_filter_None. by left.
Qed.

End StatsAndCleanup.


(* ----------------------------------------------------------------- *)
(** ** [populateAttachments] *)

Section PopulateAttachmentsProofs.

Lemma with_more_attachments_nil (e : Event) : with_more_attachments e [] = e.
Proof. destruct e. unfold with_more_attachments. simpl. by rewrite app_nil_r. Qed.

Lemma with_more_attachments_cons (a : AttachmentRow) (e : Event) (rows : list AttachmentRow) :
  with_more_attachments (add_attachment (row_attachment a) e) rows =
  with_more_attachments e (a :: rows).
Proof. destruct e. unfold with_more_attachments, add_attachment. simpl. by rewrite <- app_assoc. Qed.

Lemma apply_attachment_rows_lookup (eventByID : gmap string nat) (rows : list AttachmentRow)
    (events : list Event) (i : nat) :
  apply_attachment_rows eventByID rows events !! i =
  (fun e => with_more_attachments e
     (List.filter (fun a => bool_decide (eventByID !! ar_event_id a = Some i)) rows))
    <$> events !! i.
Proof.
  revert events. induction rows as [|a rows IH]; intros events; simpl.
  - destruct (events !! i); simpl; [by rewrite with_more_attachments_nil|done].
  - rewrite IH. destruct (eventByID !! ar_event_id a) as [j|] eqn:Hj.
    + destruct (decide (j = i)) as [->|Hne].
      * rewrite list_lookup_alter_eq, bool_decide_eq_true_2 by done.
        destruct (events !! i); simpl; [|done]. by rewrite with_more_attachments_cons.
      * rewrite list_lookup_alter_ne by done.
        rewrite bool_decide_eq_false_2 by congruence. done.
    + by rewrite bool_decide_eq_false_2 by congruence.
Qed.

Lemma apply_attachment_rows_length (eventByID : gmap string nat) (rows : list AttachmentRow)
    (events : list Event) :
  length (apply_attachment_rows eventByID rows events) = length events.
Proof.
  revert events. induction rows as [|a rows IH]; intros events; simpl; [done|].
  rewrite IH. destruct (eventByID !! ar_event_id a); [apply length_alter|done].
Qed.

Lemma apply_attachment_rows_app (eventByID : gmap string nat) (r1 r2 : list AttachmentRow)
    (events : list Event) :
  apply_attachment_rows eventByID (r1 ++ r2) events =
  apply_attachment_rows eventByID r2 (apply_attachment_rows eventByID r1 events).
Proof. revert events. induction r1 as [|a r1 IH]; intros events; simpl; [done|]. apply IH. Qed.

Lemma filter_perm {A} (p : A -> bool) (l1 l2 : list A) :
  l1 ≡ₚ l2 -> List.filter p l1 ≡ₚ List.filter p l2.
Proof.
  induction 1 as [|x l1 l2 _ IH|x y l|l1 l2 l3 _ IH1 _ IH2]; simpl.
  - done.
  - destruct (p x); [by constructor|done].
  - destruct (p x), (p y); try constructor; done.
  - by rewrite IH1.
Qed.

Lemma filter_false {A} (p : A -> bool) (l : list A) :
  (forall a, In a l -> p a = false) -> List.filter p l = [].
Proof.
  induction l as [|a l IH]; intros H; simpl; [done|].
  rewrite H by (left; done). apply IH. intros b Hb. apply H. by right.
Qed.

Lemma filter_filter_bool {A} (p q : A -> bool) (l : list A) :
  List.filter p (List.filter q l) = List.filter (fun a => q a && p a) l.
Proof.
  induction l as [|a l IH]; simpl; [done|].
  destruct (q a); simpl; [|exact IH]. destruct (p a); [f_equal|]; exact IH.
Qed.

Lemma sorted_filter (p : AttachmentRow -> bool) (l : list AttachmentRow) :
  Sorted created_le l -> Sorted created_le (List.filter p l).
Proof.
  assert (Htr : Transitive created_le) by (unfold created_le; intros ???; lia).
  intros Hs. apply Sorted_StronglySorted in Hs; [|exact Htr].
  apply StronglySorted_Sorted.
  induction Hs as [|a l Hs IH Hall]; simpl; [constructor|].
  destruct (p a); [|exact IH]. constructor; [exact IH|].
  apply Forall_forall. intros b Hb. apply list_elem_of_In, filter_In in Hb as [Hb _].
  rewrite Forall_forall in Hall. apply Hall, list_elem_of_In, Hb.
Qed.

Lemma chunk_loop_ok (tbl : gmap string AttachmentRow)
    (query : list string -> list AttachmentRow * option PopulateError)
    (eventByID : gmap string nat) (fuel : nat) (ids : list string) (events : list Event) :
  honest_query tbl query -> (length ids <= fuel)%nat -> NoDup ids ->
  exists all,
    chunk_loop fuel query eventByID ids events =
      (None, apply_attachment_rows eventByID all events) /\
    (forall a, In a all -> ar_event_id a ∈ ids) /\
    (forall x, x ∈ ids ->
       List.filter (fun a => bool_decide (ar_event_id a = x)) all ≡ₚ
       List.filter (fun a => bool_decide (ar_event_id a = x)) (map snd (map_to_list tbl)) /\
       Sorted created_le (List.filter (fun a => bool_decide (ar_event_id a = x)) all)).
Proof.
  intros Hq. revert ids events.
  induction fuel as [|f IH]; intros ids events Hlen Hnd.
  - destruct ids; simpl in Hlen; [|lia]. exists []. split; [done|].
    split; [intros a []|]. intros x Hx. by apply elem_of_nil in Hx.
  - destruct ids as [|y ys] eqn:Hids.
    { exists []. split; [done|]. split; [intros a []|]. intros x Hx. by apply elem_of_nil in Hx. }
    rewrite <- Hids in *. simpl.
    assert (Hsplit : ids = take chunkSize ids ++ drop chunkSize ids) by (symmetry; apply take_drop).
    assert (Hnd' := Hnd). rewrite Hsplit in Hnd'.
    apply NoDup_app in Hnd' as [Hnd1 [Hdisj Hnd2]].
    destruct (Hq (take chunkSize ids)) as [Herr [Hperm Hsort]].
    destruct (query (take chunkSize ids)) as [rows err] eqn:Hqc. simpl in Herr, Hperm, Hsort. subst err.
    destruct (IH (drop chunkSize ids) (apply_attachment_rows eventByID rows events))
      as [all' [Hrun [Hin' Hx']]]; [rewrite length_drop; subst ids; simpl in *; unfold chunkSize; lia|exact Hnd2|].
    assert (Hrows : forall a, In a rows -> ar_event_id a ∈ take chunkSize ids).
    { intros a Ha. eapply Permutation_in in Ha; [|exact Hperm].
      apply filter_In in Ha as [_ Ha]. by apply bool_decide_eq_true_1 in Ha. }
    exists (rows ++ all'). split.
    { subst ids. rewrite Hrun. by rewrite apply_attachment_rows_app. }
    split.
    { intros a Ha. apply in_app_or in Ha as [Ha|Ha]; rewrite Hsplit; apply elem_of_app;
        [left; by apply Hrows|right; by apply Hin']. }
    intros x Hx. rewrite List.filter_app.
    rewrite Hsplit in Hx. apply elem_of_app in Hx as [Hx|Hx].
    + rewrite (filter_false _ all').
      2:{ intros a Ha. apply bool_decide_eq_false_2. intros E. subst x.
          apply (Hdisj (ar_event_id a)); [exact Hx|by apply Hin']. }
      rewrite app_nil_r. split.
      * rewrite (filter_perm _ _ _ Hperm), filter_filter_bool.
        apply Permutation_refl'. apply filter_ext_in. intros a _.
        destruct (decide (ar_event_id a = x)) as [E|E].
        -- subst x. by rewrite !bool_decide_eq_true_2.
        -- rewrite (bool_decide_eq_false_2 (ar_event_id a = x)) by done.
           by rewrite andb_false_r.
      * by apply sorted_filter.
    + rewrite (filter_false _ rows).
      2:{ intros a Ha. apply bool_decide_eq_false_2. intros E. subst x.
          apply (Hdisj (ar_event_id a)); [by apply Hrows|exact Hx]. }
      simpl. by apply Hx'.
Qed.

Lemma collect_ids_ids (k : nat) (events : list Event) (ids : list string) (m : gmap string nat) :
  (collect_ids k events ids m).1 =
  ids ++ List.filter (fun x => negb (String.eqb x "")) (map ID events).
Proof.
  revert k ids m. induction events as [|e events IH]; intros k ids m; simpl.
  - by rewrite app_nil_r.
  - destruct (String.eqb (ID e) "") eqn:E; simpl; rewrite IH; [done|].
    by rewrite <- app_assoc.
Qed.

Lemma collect_ids_sound (full : list Event) (k : nat) (events : list Event)
    (ids : list string) (m : gmap string nat) :
  (forall j e, events !! j = Some e -> full !! (k + j)%nat = Some e) ->
  (forall x i, m !! x = Some i -> exists e, full !! i = Some e /\ ID e = x /\ x <> "") ->
  forall x i, (collect_ids k events ids m).2 !! x = Some i ->
    exists e, full !! i = Some e /\ ID e = x /\ x <> "".
Proof.
  revert k ids m. induction events as [|e events IH]; intros k ids m Hfull Hm; simpl; [exact Hm|].
  assert (Hfull' : forall j e', events !! j = Some e' -> full !! (S k + j)%nat = Some e').
  { intros j e' Hj. replace (S k + j)%nat with (k + S j)%nat by lia. by apply Hfull. }
  destruct (String.eqb_spec (ID e) "") as [E|E]; apply IH; try exact Hfull'; [exact Hm|].
  intros x i Hx. destruct (decide (x = ID e)) as [->|Hne].
  - rewrite lookup_insert_eq in Hx. inversion Hx; subst i. exists e.
    split; [|done]. rewrite <- (Nat.add_0_r k). by apply Hfull.
  - rewrite lookup_insert_ne in Hx by congruence. by apply Hm.
Qed.

Lemma collect_ids_notin (k : nat) (events : list Event) (ids : list string)
    (m : gmap string nat) (x : string) :
  x ∉ List.filter (fun x => negb (String.eqb x "")) (map ID events) ->
  (collect_ids k events ids m).2 !! x = m !! x.
Proof.
  revert k ids m. induction events as [|e events IH]; intros k ids m Hx; simpl in *; [done|].
  destruct (String.eqb (ID e) "") eqn:E; simpl in Hx; [by apply IH|].
  rewrite elem_of_cons in Hx. apply Decidable.not_or in Hx as [Hx1 Hx2].
  rewrite IH by exact Hx2. by rewrite lookup_insert_ne by congruence.
Qed.

Lemma collect_ids_last (k : nat) (events : list Event) (ids : list string)
    (m : gmap string nat) (j : nat) (e : Event) :
  NoDup (List.filter (fun x => negb (String.eqb x "")) (map ID events)) ->
  events !! j = Some e -> ID e <> "" ->
  (collect_ids k events ids m).2 !! ID e = Some (k + j)%nat.
Proof.
  revert k ids m j. induction events as [|e' events IH]; intros k ids m j Hnd Hj He; [done|].
  simpl in Hnd |- *. destruct j as [|j]; simpl in Hj.
  - inversion Hj; subst e'. destruct (String.eqb_spec (ID e) "") as [E|E]; [done|].
    simpl in Hnd. apply NoDup_cons in Hnd as [Hnotin _].
    rewrite collect_ids_notin by exact Hnotin. rewrite lookup_insert_eq. f_equal. lia.
  - replace (k + S j)%nat with (S k + j)%nat by lia.
    destruct (String.eqb (ID e') ""); simpl in Hnd; [by apply IH|].
    apply NoDup_cons in Hnd as [_ Hnd]. by apply IH.
Qed.

(** When the attachment query succeeds, [populateAttachments] appends to
    every event with a non-empty ID exactly the attachment rows stored
    for that ID, ordered by [created_at], whatever the split into chunks
    of 900 IDs; an event with an empty ID gains nothing, and no event
    changes otherwise. The event IDs must be distinct, as the rows of
    [GetEvents] are. *)
Theorem populateAttachments_spec (tbl : gmap string AttachmentRow)
    (query : list string -> list AttachmentRow * option PopulateError) (events : list Event) :
  honest_query tbl query ->
  NoDup (List.filter (fun x => negb (String.eqb x "")) (map ID events)) ->
  let '(r, events') := populateAttachments query events in
  r = None /\ length events' = length events /\
  forall i e, events !! i = Some e -> exists extra,
    events' !! i = Some (with_more_attachments e extra) /\
    (ID e = "" -> extra = []) /\
    (ID e <> "" ->
       extra ≡ₚ List.filter (fun a => bool_decide (ar_event_id a = ID e)) (map snd (map_to_list tbl)) /\
       Sorted created_le extra).
Proof.
  intros Hq Hnd. unfold populateAttachments.
  assert (Hsame : forall i e, events !! i = Some e -> ID e = "" ->
            exists extra, events !! i = Some (with_more_attachments e extra) /\
              (ID e = "" -> extra = []) /\ (ID e <> "" -> False)).
  { intros i e Hi He. exists []. rewrite with_more_attachments_nil. done. }
  destruct events as [|e0 rest] eqn:Hev.
  { split; [done|]. split; [done|]. intros i e Hi. done. }
  rewrite <- Hev in *.
  destruct (collect_ids 0 events [] ∅) as [ids eventByID] eqn:Hc.
  assert (Hids : ids = List.filter (fun x => negb (String.eqb x "")) (map ID events)).
  { pose proof (collect_ids_ids 0 events [] ∅) as H. rewrite Hc in H. exact H. }
  assert (Hin_ids : forall i e, events !! i = Some e -> ID e <> "" -> ID e ∈ ids).
  { intros i e Hi He. rewrite Hids. apply list_elem_of_In, filter_In. split.
    - apply in_map, list_elem_of_In. by eapply list_elem_of_lookup_2.
    - apply negb_true_iff, String.eqb_neq, He. }
  destruct ids as [|y ys] eqn:Hids0.
  { split; [done|]. split; [done|]. intros i e Hi. exists [].
    rewrite with_more_attachments_nil. split; [done|]. split; [done|].
    intros He. specialize (Hin_ids i e Hi He). by apply elem_of_nil in Hin_ids. }
  rewrite <- Hids0 in *.
  destruct (chunk_loop_ok tbl query eventByID (length ids) ids events Hq)
    as [all [Hrun [Hall Hx]]]; [lia|by rewrite Hids|].
  rewrite Hrun. split; [done|]. split; [apply apply_attachment_rows_length|].
  assert (Hsound : forall x i, eventByID !! x = Some i ->
            exists e, events !! i = Some e /\ ID e = x /\ x <> "").
  { intros x i Hxi. pose proof (collect_ids_sound events 0 events [] ∅) as H.
    rewrite Hc in H. apply (H (fun j e Hj => Hj)); [|exact Hxi].
    intros x' i' Hx'. by rewrite lookup_empty in Hx'. }
  intros i e Hi. rewrite apply_attachment_rows_lookup, Hi. simpl.
  eexists. split; [reflexivity|]. split.
  - intros He. apply filter_false. intros a Ha. apply bool_decide_eq_false_2. intros Hl.
    destruct (Hsound _ _ Hl) as [e' [He' [HID Hne]]]. rewrite Hi in He'. inversion He'; subst e'.
    congruence.
  - intros He.
    assert (Hlast : eventByID !! ID e = Some i).
    { pose proof (collect_ids_last 0 events [] ∅ i e) as H. rewrite Hc in H.
      apply H; [exact Hnd|exact Hi|exact He]. }
    rewrite (filter_ext_in _ (fun a => bool_decide (ar_event_id a = ID e))).
    + apply Hx. by apply (Hin_ids i).
    + intros a Ha. destruct (decide (ar_event_id a = ID e)) as [E|E].
      * rewrite E, Hlast. by rewrite !bool_decide_eq_true_2.
      * rewrite (bool_decide_eq_false_2 (ar_event_id a = ID e)) by done.
        apply bool_decide_eq_false_2. intros Hl.
        destruct (Hsound _ _ Hl) as [e' [He' [HID _]]]. rewrite Hi in He'.
        inversion He'; subst e'. congruence.
Qed.

Lemma sorted_same_created (l : list AttachmentRow) (c : Z) :
  Forall (fun a => ar_created_at a = c) l -> Sorted created_le l.
Proof.
  induction l as [|a l IH]; intros Hall; [constructor|].
  apply Forall_cons in Hall as [Ha Hl]. constructor; [by apply IH|].
  destruct l as [|b l]; constructor. apply Forall_cons in Hl as [Hb _].
  unfold created_le. lia.
Qed.

Lemma populateAttachments_spec_witness :
  honest_query fixture_attachments fixture_query /\
  NoDup (List.filter (fun x => negb (String.eqb x "")) (map ID fixture_events)) /\
  let '(r, events') := populateAttachments fixture_query fixture_events in
  r = None /\ length events' = length fixture_events /\
  forall i e, fixture_events !! i = Some e -> exists extra,
    events' !! i = Some (with_more_attachments e extra) /\
    (ID e = "" -> extra = []) /\
    (ID e <> "" ->
       extra ≡ₚ List.filter (fun a => bool_decide (ar_event_id a = ID e))
                  (map snd (map_to_list fixture_attachments)) /\
       Sorted created_le extra).
Proof.
  assert (Hq : honest_query fixture_attachments fixture_query).
  { intros chunk. split; [reflexivity|]. split; [reflexivity|].
    apply sorted_filter, (sorted_same_created _ 0). vm_compute. repeat constructor. }
  assert (Hn : NoDup (List.filter (fun x => negb (String.eqb x "")) (map ID fixture_events))).
  { apply (@bool_decide_unpack _ (NoDup_dec _)). vm_compute. exact I. }
  split; [exact Hq|]. split; [exact Hn|].
  exact (populateAttachments_spec fixture_attachments fixture_query fixture_events Hq Hn).
Defined.

End PopulateAttachmentsProofs.
